(** * QSchematic::View: the zoomable, pannable viewport of the schematic editor

    A shallow embedding of [src/qschematic/view.cpp] and the properties of
    its zoom arithmetic, scene-rect maintenance, pan gesture, key bindings
    and scene attachment.

    Conventions of the embedding.
    - [qreal] and [float] values are real numbers ([R]): the rounding of
      IEEE-754 arithmetic is not modelled, so identities that hold in the
      code up to rounding hold exactly here.
    - [int] values are [Z]; the conversions [double -> int] are the ones
      the toolkit performs ([qRound]), taken within the range of [int].
      The toolkit's value classes follow Qt 6, which the code is written
      against ([QMouseEvent::position]).
    - The object state ([View] fields, the inherited [QGraphicsView]
      sub-object, the [Scene] objects the view points to, the signal
      connections) is threaded explicitly through a state-and-failure
      monad; dereferencing a scene pointer that designates no live object
      is the only failure.
    - What the toolkit computes from state this file does not own
      (viewport geometry, scroll position) is an interface, [Toolkit]. *)

From Stdlib Require Import Reals Lra Lia ZArith List.
From stdpp Require Import base gmap.
Import ListNotations.

Local Open Scope R_scope.

(** ** Toolkit arithmetic (QtGlobal, <algorithm>) *)

(** [qRound(double)]: [d >= 0.0 ? int(d + 0.5) : int(d - 0.5)], the
    conversion to [int] truncating toward zero. *)
Definition qRound (d : R) : Z :=
  if Rle_dec 0 d then Zfloor (d + / 2) else (- Zfloor (/ 2 - d))%Z.

(** [qMin(a, b)]: [(a < b) ? a : b]. *)
Definition qMin (a b : R) : R := if Rlt_dec a b then a else b.

(** [qMax(a, b)]: [(a < b) ? b : a]. *)
Definition qMax (a b : R) : R := if Rlt_dec a b then b else a.

(** [qBound(min, val, max)]: [qMax(min, qMin(max, val))]. *)
Definition qBound (min val max : R) : R := qMax min (qMin max val).

(** [std::min(a, b)]: [(b < a) ? b : a]. *)
Definition std_min (a b : R) : R := if Rlt_dec b a then b else a.

(** [std::max(a, b)]: [(a < b) ? b : a]. *)
Definition std_max (a b : R) : R := if Rlt_dec a b then b else a.

(** [a == b] on [qreal]. *)
Definition Reqb (a b : R) : bool := if Req_dec_T a b then true else false.

(** [a < b] on [qreal]. *)
Definition Rltb (a b : R) : bool := if Rlt_dec a b then true else false.

(** ** Toolkit value classes (QPoint, QPointF, QRect, QRectF, QTransform) *)

Module QPoint.
Record t := mk { x : Z; y : Z }.
End QPoint.

Module QPointF.
Record t := mk { x : R; y : R }.

(** [QPointF(const QPoint &)]. *)
Definition ofPoint (p : QPoint.t) : t := mk (IZR (QPoint.x p)) (IZR (QPoint.y p)).

(** [QPointF::toPoint()]: both coordinates rounded. *)
Definition toPoint (p : t) : QPoint.t := QPoint.mk (qRound (x p)) (qRound (y p)).

(** [operator-(QPointF, QPointF)]. *)
Definition sub (a b : t) : t := mk (x a - x b) (y a - y b).
End QPointF.

Module QRect.
(** Qt stores the two corners, the second one inclusive. *)
Record t := mkCorners { x1 : Z; y1 : Z; x2 : Z; y2 : Z }.

(** [QRect(int x, int y, int w, int h)]. *)
Definition mk (x y w h : Z) : t := mkCorners x y (x + w - 1) (y + h - 1).

Definition x (r : t) : Z := x1 r.
Definition y (r : t) : Z := y1 r.
Definition width (r : t) : Z := x2 r - x1 r + 1.
Definition height (r : t) : Z := y2 r - y1 r + 1.

(** [isNull()]: [x2 == x1 - 1 && y2 == y1 - 1]. *)
Definition isNull (r : t) : bool :=
  ((x2 r =? x1 r - 1) && (y2 r =? y1 r - 1))%Z.

(** The extent along one axis of a rectangle stored as corners [c1]
    and [c2], as [contains] computes it: the corners swap when the
    size is negative. *)
Definition span (c1 c2 : Z) : Z * Z :=
  if (c2 <? c1 - 1)%Z then (c2 + 1, c1 - 1)%Z else (c1, c2).

(** [QRect::contains(const QRect &r, bool proper)]. *)
Definition contains (self r : t) (proper : bool) : bool :=
  if isNull self || isNull r then false else
  let '(l1, r1) := span (x1 self) (x2 self) in
  let '(l2, r2) := span (x1 r) (x2 r) in
  if (if proper then (l2 <=? l1) || (r2 >=? r1) else (l2 <? l1) || (r2 >? r1))%Z
  then false else
  let '(t1, b1) := span (y1 self) (y2 self) in
  let '(t2, b2) := span (y1 r) (y2 r) in
  if (if proper then (t2 <=? t1) || (b2 >=? b1) else (t2 <? t1) || (b2 >? b1))%Z
  then false else true.
End QRect.

Module QRectF.
(** Qt stores the top-left corner and the size. *)
Record t := mk { xp : R; yp : R; w : R; h : R }.

(** [QRectF()]: the null rectangle. *)
Definition null : t := mk 0 0 0 0.

(** [QRectF(const QRect &)]. *)
Definition ofRect (r : QRect.t) : t :=
  mk (IZR (QRect.x r)) (IZR (QRect.y r))
     (IZR (QRect.width r)) (IZR (QRect.height r)).

Definition x (r : t) : R := xp r.
Definition y (r : t) : R := yp r.
Definition width (r : t) : R := w r.
Definition height (r : t) : R := h r.

(** [isNull()]: [w == 0. && h == 0.]. *)
Definition isNull (r : t) : bool := Reqb (w r) 0 && Reqb (h r) 0.

(** [toRect()]: the position rounded, the size rounded after taking
    half of the position's rounding error into account. *)
Definition toRect (r : t) : QRect.t :=
  let nxp := qRound (xp r) in
  let nyp := qRound (yp r) in
  let nw := qRound (w r + (xp r - IZR nxp) / 2) in
  let nh := qRound (h r + (yp r - IZR nyp) / 2) in
  QRect.mk nxp nyp nw nh.

(** The extent along one axis of a rectangle stored as position [p]
    and size [s]: the ends swap when the size is negative. *)
Definition span (p s : R) : R * R :=
  if Rlt_dec s 0 then (p + s, p) else (p, p + s).

(** [united(r)], that is [operator|]. *)
Definition united (self r : t) : t :=
  if isNull self then r else
  if isNull r then self else
  let '(lft, rgt) := span (xp self) (w self) in
  let '(lft, rgt) :=
    if Rlt_dec (w r) 0 then (qMin lft (xp r + w r), qMax rgt (xp r))
    else (qMin lft (xp r), qMax rgt (xp r + w r)) in
  let '(top, bottom) := span (yp self) (h self) in
  let '(top, bottom) :=
    if Rlt_dec (h r) 0 then (qMin top (yp r + h r), qMax bottom (yp r))
    else (qMin top (yp r), qMax bottom (yp r + h r)) in
  mk lft top (rgt - lft) (bottom - top).

(** [contains(const QPointF &)]: a rectangle of zero width or of
    zero height contains no point. *)
Definition contains (r : t) (p : QPointF.t) : Prop :=
  let '(l, rr) := span (xp r) (w r) in
  let '(tp, b) := span (yp r) (h r) in
  l <> rr /\ l <= QPointF.x p <= rr /\ tp <> b /\ tp <= QPointF.y p <= b.

(** [adjust(dx1, dy1, dx2, dy2)]. *)
Definition adjust (dx1 dy1 dx2 dy2 : R) (r : t) : t :=
  mk (xp r + dx1) (yp r + dy1) (w r + (dx2 - dx1)) (h r + (dy2 - dy1)).

(** [moveTo(const QPointF &)]. *)
Definition moveTo (p : QPointF.t) (r : t) : t :=
  mk (QPointF.x p) (QPointF.y p) (w r) (h r).
End QRectF.

Module QTransform.
(** The affine part of the 3x3 matrix; the view only ever sets affine
    transforms. *)
Record t := mk { m11 : R; m12 : R; m21 : R; m22 : R; dx : R; dy : R }.

(** [QTransform::fromScale(sx, sy)]. *)
Definition fromScale (sx sy : R) : t := mk sx 0 0 sy 0 0.

(** [translate(dx, dy)]: the translation is applied before the
    matrix. *)
Definition translate (tx ty : R) (m : t) : t :=
  mk (m11 m) (m12 m) (m21 m) (m22 m)
     (dx m + tx * m11 m + ty * m21 m)
     (dy m + ty * m22 m + tx * m12 m).
End QTransform.


(** ** Collaborators of the view *)

(** A [Scene *]: the address of a scene object. *)
Definition SceneId : Type := nat.

Module Item.
(** A [QGraphicsItem] as far as the view reads it: [boundingRect()]
    and [scenePos()]; [id] tells items apart. *)
Record t := mk { id : nat; boundingRect : QRectF.t; scenePos : QPointF.t }.
End Item.

Module Scene.
(** [Scene::Mode], as the [int] carried by [Scene::modeChanged]. *)
Inductive Mode := NormalMode | WireMode | OtherMode (n : Z).

Definition Mode_eqb (a b : Mode) : bool :=
  match a, b with
  | NormalMode, NormalMode => true
  | WireMode, WireMode => true
  | OtherMode n, OtherMode m => (n =? m)%Z
  | _, _ => false
  end.

(** [Commands::ItemRemove(scene, item)]. *)
Inductive Command := ItemRemove (scene : SceneId) (item : Item.t).

(** Modelled from the spec: the Scene collaborator ([scene.hpp] and
    [commands/item_remove.hpp] are not among the sources). It holds the
    schematic items, the selection, the current mode, the wire-drawing
    posture and the points of the wire being drawn, and an undo stack;
    [undoStack] lists the commands pushed so far, oldest first. *)
Record t := mk {
  mode : Mode;
  items : list Item.t;
  selectedTopLevelItems : list Item.t;
  wirePosture : bool;
  wirePoints : list QPointF.t;
  undoStack : list Command
}.

(** Modelled from the spec: set-mode stores the mode (the mode-change
    notification is emitted by [Scene_setMode] below). *)
Definition set_mode (m : Mode) (s : t) : t :=
  mk m (items s) (selectedTopLevelItems s) (wirePosture s) (wirePoints s)
     (undoStack s).

(** Modelled from the spec: toggle-wire-posture flips the routing
    orientation of the segment in progress. *)
Definition toggleWirePosture (s : t) : t :=
  mk (mode s) (items s) (selectedTopLevelItems s) (negb (wirePosture s))
     (wirePoints s) (undoStack s).

(** Modelled from the spec: remove-last-wire-point drops the last
    placed wire point. *)
Definition removeLastWirePoint (s : t) : t :=
  mk (mode s) (items s) (selectedTopLevelItems s) (wirePosture s)
     (removelast (wirePoints s)) (undoStack s).

(** Modelled from the spec: push-command puts the command on top of
    the undo stack. *)
Definition push (c : Command) (s : t) : t :=
  mk (mode s) (items s) (selectedTopLevelItems s) (wirePosture s)
     (wirePoints s) (undoStack s ++ [c]).
End Scene.

(** Modelled from the spec: the settings value ([settings.hpp] is not
    among the sources), with its one recognised option. *)
Record Settings := { antialiasing : bool }.

(** [Qt::CursorShape], the shapes the view uses. *)
Inductive CursorShape := ArrowCursor | CrossCursor | ClosedHandCursor.

(** [QGraphicsView::ViewportAnchor]. *)
Inductive ViewportAnchor := NoAnchor | AnchorViewCenter | AnchorUnderMouse.

(** [Qt::MouseButton], the buttons told apart here. *)
Inductive MouseButton := LeftButton | RightButton | MiddleButton | NoButton.

(** [QKeyEvent]: [modifiers()] is a bit mask, [key()] a key code. *)
Record QKeyEvent := { modifiers : Z; key : Z }.

(** [QWheelEvent]: [modifiers()] and the vertical [angleDelta().y()]. *)
Record QWheelEvent := { wheel_modifiers : Z; angleDelta_y : Z }.

(** [QMouseEvent]: [button()] and [position()]; [pos()] is the rounded
    position. *)
Record QMouseEvent := { button : MouseButton; position : QPointF.t }.

Definition pos (e : QMouseEvent) : QPoint.t := QPointF.toPoint (position e).

(** The values of [Qt::KeyboardModifier] and [Qt::Key] used by the view. *)
Definition ControlModifier : Z := 0x04000000.
Definition Key_Space : Z := 0x20.
Definition Key_Plus : Z := 0x2b.
Definition Key_Minus : Z := 0x2d.
Definition Key_0 : Z := 0x30.
Definition Key_W : Z := 0x57.
Definition Key_Escape : Z := 0x01000000.
Definition Key_Backspace : Z := 0x01000003.
Definition Key_Delete : Z := 0x01000007.

(** [modifiers & Qt::ControlModifier], as a condition. *)
Definition controlHeld (modifiers : Z) : bool :=
  negb (Z.land modifiers ControlModifier =? 0)%Z.

(** An event handed on to the base class's handler. *)
Inductive BaseEvent :=
| BaseKeyPress (e : QKeyEvent)
| BaseMouseMove (e : QMouseEvent)
| BaseMousePress (e : QMouseEvent)
| BaseMouseRelease (e : QMouseEvent).

Module QGraphicsView.
(** The inherited sub-object: the properties the view sets or reads,
    and [handled], the events passed to the base class's own handlers
    (most recent last). The toolkit's further state (scroll bars, the
    viewport widget) is not represented: see [Toolkit]. *)
Record t := mk {
  transform : QTransform.t;
  transformationAnchor : ViewportAnchor;
  sceneRect : QRectF.t;
  cursor : CursorShape;
  renderHint_Antialiasing : bool;
  scene : option SceneId;
  handled : list BaseEvent
}.

Definition setTransform (m : QTransform.t) (v : t) : t :=
  mk m (transformationAnchor v) (sceneRect v) (cursor v)
     (renderHint_Antialiasing v) (scene v) (handled v).

Definition setTransformationAnchor (a : ViewportAnchor) (v : t) : t :=
  mk (transform v) a (sceneRect v) (cursor v)
     (renderHint_Antialiasing v) (scene v) (handled v).

Definition setSceneRect (r : QRectF.t) (v : t) : t :=
  mk (transform v) (transformationAnchor v) r (cursor v)
     (renderHint_Antialiasing v) (scene v) (handled v).

(** [viewport()->setCursor(shape)]. *)
Definition setCursor (c : CursorShape) (v : t) : t :=
  mk (transform v) (transformationAnchor v) (sceneRect v) c
     (renderHint_Antialiasing v) (scene v) (handled v).

(** [setRenderHint(QPainter::Antialiasing, on)]. *)
Definition setRenderHint_Antialiasing (on : bool) (v : t) : t :=
  mk (transform v) (transformationAnchor v) (sceneRect v) (cursor v)
     on (scene v) (handled v).

Definition setScene (s : option SceneId) (v : t) : t :=
  mk (transform v) (transformationAnchor v) (sceneRect v) (cursor v)
     (renderHint_Antialiasing v) s (handled v).

(** A call of the base class's handler of the same name. *)
Definition baseEvent (e : BaseEvent) (v : t) : t :=
  mk (transform v) (transformationAnchor v) (sceneRect v) (cursor v)
     (renderHint_Antialiasing v) (scene v) (handled v ++ [e]).
End QGraphicsView.

(** What the toolkit computes for the view from its own state. *)
Class Toolkit := {
  (** [mapToScene(const QPoint &)]. *)
  mapToScene : QGraphicsView.t -> QPoint.t -> QPointF.t;
  (** [mapToScene(const QRect &).boundingRect()]. *)
  mapToScene_boundingRect : QGraphicsView.t -> QRect.t -> QRectF.t;
  (** [viewport()->rect()]. *)
  viewport_rect : QGraphicsView.t -> QRect.t;
  (** [viewport()->geometry()]. *)
  viewport_geometry : QGraphicsView.t -> QRect.t;
  (** [QGraphicsView::fitInView(rect, Qt::KeepAspectRatio)]. *)
  QGraphicsView_fitInView : QRectF.t -> QGraphicsView.t -> QGraphicsView.t
}.

(** The constants of [view.hpp] (not among the sources). *)
Class Constants := {
  zoom_factor_min : R;
  zoom_factor_max : R;
  zoom_factor_step : R;
  fitall_padding : R
}.

(** ** The view and the objects around it *)

(** [View::Mode]. *)
Inductive Mode := NormalMode | PanMode.

(** The signals of [View]. *)
Inductive Signal := zoomChanged (zoom : R) | modeChanged (m : Mode).

(** The data members of [View]. *)
Record ViewData := mkViewData {
  _scene : option SceneId;
  _settings : Settings;
  _scaleFactor : R;
  _mode : Mode;
  _panStart : QPointF.t
}.

(** The view, the scene objects it may point to, the connections made
    from a scene's [modeChanged] to the view's cursor lambda (each
    entry is the sender of one connection, oldest first) and the signals
    the view has emitted (oldest first). *)
Record World := mkWorld {
  view : ViewData;
  base : QGraphicsView.t;
  heap : gmap SceneId Scene.t;
  connections : list SceneId;
  emitted : list Signal
}.

(** ** State-and-failure monad *)

Definition M (A : Type) : Type := World -> option (A * World).

Definition ret {A} (a : A) : M A := fun w => Some (a, w).

Definition bind {A B} (m : M A) (k : A -> M B) : M B :=
  fun w => match m w with Some (a, w') => k a w' | None => None end.

Definition gets {A} (f : World -> A) : M A := fun w => Some (f w, w).

Definition modify (f : World -> World) : M unit := fun w => Some (tt, f w).

Declare Scope view_scope.
Delimit Scope view_scope with view.
Notation "x <- m ;; k" := (bind m (fun x => k))
  (at level 100, m at next level, k at level 200, right associativity) : view_scope.
Notation "m ;; k" := (bind m (fun _ => k))
  (at level 100, k at level 200, right associativity) : view_scope.
Local Open Scope view_scope.

(** [for (auto x : xs) body]. *)
Fixpoint forEach {A} (xs : list A) (body : A -> M unit) : M unit :=
  match xs with
  | [] => ret tt
  | x :: xs' => body x ;; forEach xs' body
  end.

(** Running a handler for its final state. *)
Definition exec {A} (m : M A) (w : World) : option World :=
  match m w with Some (_, w') => Some w' | None => None end.

(** *** Access to the parts of the state *)

Definition with_view (f : ViewData -> ViewData) : M unit :=
  modify (fun w => mkWorld (f (view w)) (base w) (heap w) (connections w) (emitted w)).

Definition with_base (f : QGraphicsView.t -> QGraphicsView.t) : M unit :=
  modify (fun w => mkWorld (view w) (f (base w)) (heap w) (connections w) (emitted w)).

(** [Q_EMIT signal] on the view. *)
Definition emit (s : Signal) : M unit :=
  modify (fun w => mkWorld (view w) (base w) (heap w) (connections w) (emitted w ++ [s])).

(** [connect(scene, &Scene::modeChanged, lambda)]. *)
Definition connect_modeChanged (sender : SceneId) : M unit :=
  modify (fun w => mkWorld (view w) (base w) (heap w) (connections w ++ [sender]) (emitted w)).

Definition set_scene (s : option SceneId) (v : ViewData) : ViewData :=
  mkViewData s (_settings v) (_scaleFactor v) (_mode v) (_panStart v).

Definition set_settings (s : Settings) (v : ViewData) : ViewData :=
  mkViewData (_scene v) s (_scaleFactor v) (_mode v) (_panStart v).

Definition set_scaleFactor (f : R) (v : ViewData) : ViewData :=
  mkViewData (_scene v) (_settings v) f (_mode v) (_panStart v).

Definition set_mode (m : Mode) (v : ViewData) : ViewData :=
  mkViewData (_scene v) (_settings v) (_scaleFactor v) m (_panStart v).

Definition set_panStart (p : QPointF.t) (v : ViewData) : ViewData :=
  mkViewData (_scene v) (_settings v) (_scaleFactor v) (_mode v) p.

(** [*scene]: fails when the pointer designates no live scene. *)
Definition deref (sid : SceneId) : M Scene.t :=
  fun w => match heap w !! sid with Some s => Some (s, w) | None => None end.

(** [scene->method(...)] for a method that changes the scene. *)
Definition onScene (sid : SceneId) (f : Scene.t -> Scene.t) : M unit :=
  s <- deref sid ;;
  modify (fun w => mkWorld (view w) (base w) (<[sid := f s]> (heap w))
                           (connections w) (emitted w)).

(** [if (_scene) ...]. *)
Definition ifScene (k : SceneId -> M unit) : M unit :=
  sc <- gets (fun w => _scene (view w)) ;;
  match sc with
  | Some sid => k sid
  | None => ret tt
  end.

(** ** The methods of [View] *)

Module View.

(** The lambda connected by [setScene]: the cursor follows the scene's
    mode. *)
Definition cursorLambda (newMode : Scene.Mode) : M unit :=
  match newMode with
  | Scene.NormalMode => with_base (QGraphicsView.setCursor ArrowCursor)
  | Scene.WireMode => with_base (QGraphicsView.setCursor CrossCursor)
  | Scene.OtherMode _ => ret tt
  end.

(** [Q_EMIT modeChanged(newMode)] on scene [sender]: every connection
    whose sender it is runs its slot, in connection order. *)
Definition Scene_emit_modeChanged (sender : SceneId) (newMode : Scene.Mode) : M unit :=
  cs <- gets connections ;;
  forEach (List.filter (Nat.eqb sender) cs) (fun _ => cursorLambda newMode).

(** Modelled from the spec: [Scene::setMode] stores the mode and emits
    the scene's mode-change notification. *)
Definition Scene_setMode (sid : SceneId) (m : Scene.Mode) : M unit :=
  onScene sid (Scene.set_mode m) ;;
  Scene_emit_modeChanged sid m.

(** The normalisation of [setZoomValue]. *)
Definition normalized `{Constants} (factor : R) : R :=
  ln (zoom_factor_min / factor) / ln (zoom_factor_min / zoom_factor_max).

(** The exponential interpolation of [updateScale]. *)
Definition interpolated `{Constants} (scaleFactor : R) : R :=
  let logMinZoom := ln zoom_factor_min in
  let logMaxZoom := ln zoom_factor_max in
  let logZoom := logMinZoom + (logMaxZoom - logMinZoom) * scaleFactor in
  exp logZoom.

Definition updateSceneRect `{Toolkit} : M unit :=
  v <- gets base ;;
  let rect :=
    QRectF.ofRect (QRectF.toRect (mapToScene_boundingRect v (viewport_rect v))) in
  let rect :=
    QRectF.mk (QRectF.x rect - 50) (QRectF.y rect - 50)
              (QRectF.width rect + 100) (QRectF.height rect + 100) in
  if negb (QRect.contains (QRectF.toRect (QGraphicsView.sceneRect v))
                          (QRectF.toRect rect) true)
  then
    let rect := QRectF.united (QGraphicsView.sceneRect v) rect in
    with_base (QGraphicsView.setSceneRect rect)
  else ret tt.

(** The [float] locals are reals like the [qreal] ones; the [qDebug]
    output is left out. *)
Definition updateScale `{Constants} `{Toolkit} : M unit :=
  scaleFactor <- gets (fun w => _scaleFactor (view w)) ;;
  let zoom := interpolated scaleFactor in
  with_base (QGraphicsView.setTransformationAnchor AnchorUnderMouse) ;;
  with_base (QGraphicsView.setTransform (QTransform.fromScale zoom zoom)) ;;
  updateSceneRect ;;
  emit (zoomChanged zoom).

Definition setZoomValue `{Constants} `{Toolkit} (factor : R) : M unit :=
  with_view (set_scaleFactor (normalized factor)) ;;
  updateScale.

Definition zoomValue : M R := gets (fun w => _scaleFactor (view w)).

Definition setMode (newMode : Mode) : M unit :=
  with_view (set_mode newMode) ;;
  emit (modeChanged newMode).

(** The second [switch] of [keyPressEvent] ("just a key alone") and the
    fall back to the base class. *)
Definition keyPressEvent_alone (event : QKeyEvent) : M unit :=
  if (key event =? Key_Escape)%Z then
    ifScene (fun sid => Scene_setMode sid Scene.NormalMode)
  else if (key event =? Key_Delete)%Z then
    ifScene (fun sid =>
      s <- deref sid ;;
      if Scene.Mode_eqb (Scene.mode s) Scene.NormalMode then
        forEach (Scene.selectedTopLevelItems s) (fun item =>
          onScene sid (Scene.push (Scene.ItemRemove sid item)))
      else onScene sid Scene.removeLastWirePoint)
  else if (key event =? Key_Backspace)%Z then
    sc <- gets (fun w => _scene (view w)) ;;
    match sc with
    | Some sid =>
        s <- deref sid ;;
        if Scene.Mode_eqb (Scene.mode s) Scene.WireMode
        then onScene sid Scene.removeLastWirePoint
        else with_base (QGraphicsView.baseEvent (BaseKeyPress event))
    | None => with_base (QGraphicsView.baseEvent (BaseKeyPress event))
    end
  else with_base (QGraphicsView.baseEvent (BaseKeyPress event)).

Definition keyPressEvent `{Constants} `{Toolkit} (event : QKeyEvent) : M unit :=
  if controlHeld (modifiers event) then
    if (key event =? Key_Plus)%Z then
      with_view (fun v => set_scaleFactor (_scaleFactor v + zoom_factor_step) v) ;;
      updateScale
    else if (key event =? Key_Minus)%Z then
      with_view (fun v => set_scaleFactor (_scaleFactor v - zoom_factor_step) v) ;;
      updateScale
    else if (key event =? Key_0)%Z then
      setZoomValue 1 ;;
      updateScale
    else if (key event =? Key_W)%Z then
      ifScene (fun sid => Scene_setMode sid Scene.WireMode)
    else if (key event =? Key_Space)%Z then
      ifScene (fun sid => onScene sid Scene.toggleWirePosture)
    else keyPressEvent_alone event
  else keyPressEvent_alone event.

Definition wheelEvent `{Constants} `{Toolkit} (event : QWheelEvent) : M unit :=
  if controlHeld (wheel_modifiers event) then
    (if (angleDelta_y event >? 0)%Z then
       with_view (fun v => set_scaleFactor (_scaleFactor v + zoom_factor_step) v)
     else if (angleDelta_y event <? 0)%Z then
       with_view (fun v => set_scaleFactor (_scaleFactor v - zoom_factor_step) v)
     else ret tt) ;;
    with_view (fun v => set_scaleFactor (qBound 0 (_scaleFactor v) 1) v) ;;
    updateScale
  else ret tt.

(** The handlers of mouse events return whether [event->accept()] was
    called. *)
Definition mouseMoveEvent `{Toolkit} (event : QMouseEvent) : M bool :=
  with_base (QGraphicsView.baseEvent (BaseMouseMove event)) ;;
  m <- gets (fun w => _mode (view w)) ;;
  match m with
  | NormalMode => ret false
  | PanMode =>
      v <- gets base ;;
      panStart <- gets (fun w => _panStart (view w)) ;;
      let delta :=
        QPointF.sub (mapToScene v (pos event))
                    (mapToScene v (QPointF.toPoint panStart)) in
      with_base (QGraphicsView.setTransformationAnchor NoAnchor) ;;
      with_base (fun v => QGraphicsView.setTransform
        (QTransform.translate (QPointF.x delta) (QPointF.y delta)
                              (QGraphicsView.transform v)) v) ;;
      with_view (set_panStart (position event)) ;;
      updateSceneRect ;;
      ret true
  end.

Definition mousePressEvent (event : QMouseEvent) : M bool :=
  match button event with
  | MiddleButton =>
      setMode PanMode ;;
      with_view (set_panStart (QPointF.ofPoint (pos event))) ;;
      with_base (QGraphicsView.setCursor ClosedHandCursor) ;;
      ret true
  | _ =>
      with_base (QGraphicsView.baseEvent (BaseMousePress event)) ;;
      ret false
  end.

Definition mouseReleaseEvent (event : QMouseEvent) : M bool :=
  match button event with
  | MiddleButton =>
      setMode NormalMode ;;
      with_base (QGraphicsView.setCursor ArrowCursor) ;;
      ret true
  | _ =>
      with_base (QGraphicsView.baseEvent (BaseMouseRelease event)) ;;
      ret false
  end.

Definition setScene (scene : option SceneId) : M unit :=
  match scene with
  | Some sid => connect_modeChanged sid
  | None => ret tt
  end ;;
  with_base (QGraphicsView.setScene scene) ;;
  with_view (set_scene scene).

Definition setSettings (settings : Settings) : M unit :=
  with_view (set_settings settings) ;;
  s <- gets (fun w => _settings (view w)) ;;
  with_base (QGraphicsView.setRenderHint_Antialiasing (antialiasing s)).

(** The bounding rectangle [fitInView] accumulates over the items. *)
Definition itemsBoundingRect (items : list Item.t) : QRectF.t :=
  fold_left (fun rect item =>
               QRectF.united rect
                 (QRectF.moveTo (Item.scenePos item) (Item.boundingRect item)))
            items QRectF.null.

(** The cap [fitInView] puts on the ratio it measured. *)
Definition capped (currentScaleFactor newScaleFactor : R) : R :=
  if Rltb currentScaleFactor 1 then std_min newScaleFactor 1
  else std_min newScaleFactor currentScaleFactor.

Definition fitInView `{Constants} `{Toolkit} : M unit :=
  sc <- gets (fun w => _scene (view w)) ;;
  match sc with
  | None => ret tt
  | Some sid =>
      s <- deref sid ;;
      let rect := itemsBoundingRect (Scene.items s) in
      let adj := std_max 0 fitall_padding in
      let rect := QRectF.adjust (- adj) (- adj) adj adj rect in
      currentScaleFactor <- gets (fun w => _scaleFactor (view w)) ;;
      with_base (QGraphicsView_fitInView rect) ;;
      v <- gets base ;;
      let newScaleFactor :=
        IZR (QRect.width (viewport_geometry v)) /
        QRectF.width (mapToScene_boundingRect v (viewport_geometry v)) in
      setZoomValue (capped currentScaleFactor newScaleFactor)
  end.

End View.

(** ** Notions used to state the properties *)

(** The visible region in scene coordinates, rounded and padded by 50
    on every side: the second value of [rect] in [updateSceneRect]. *)
Definition paddedVisibleRect `{Toolkit} (v : QGraphicsView.t) : QRectF.t :=
  let rect :=
    QRectF.ofRect (QRectF.toRect (mapToScene_boundingRect v (viewport_rect v))) in
  QRectF.mk (QRectF.x rect - 50) (QRectF.y rect - 50)
            (QRectF.width rect + 100) (QRectF.height rect + 100).

(** The test of [updateSceneRect]: the rounded scene rectangle contains
    the rounded padded region properly. *)
Definition properlyInside `{Toolkit} (v : QGraphicsView.t) : bool :=
  QRect.contains (QRectF.toRect (QGraphicsView.sceneRect v))
                 (QRectF.toRect (paddedVisibleRect v)) true.

(** What [updateSceneRect] makes of the inherited sub-object. *)
Definition sceneRectUpdated `{Toolkit} (v : QGraphicsView.t) : QGraphicsView.t :=
  if properlyInside v then v
  else QGraphicsView.setSceneRect
         (QRectF.united (QGraphicsView.sceneRect v) (paddedVisibleRect v)) v.

(** The state [updateScale] leaves behind once the factor [f] has been
    stored. *)
Definition rescaled `{Constants} `{Toolkit} (f : R) (w : World) : World :=
  let zoom := View.interpolated f in
  mkWorld (set_scaleFactor f (view w))
    (sceneRectUpdated
       (QGraphicsView.setTransform (QTransform.fromScale zoom zoom)
          (QGraphicsView.setTransformationAnchor AnchorUnderMouse (base w))))
    (heap w) (connections w) (emitted w ++ [zoomChanged zoom]).

(** Region inclusion: every point of [a] is a point of [b]. *)
Definition covers (b a : QRectF.t) : Prop :=
  forall p, QRectF.contains a p -> QRectF.contains b p.

(** A rectangle of non-negative width and height. *)
Definition normalizedRect (r : QRectF.t) : Prop :=
  0 <= QRectF.w r /\ 0 <= QRectF.h r.

(** The ratio [fitInView] measures once the toolkit has fitted [rect]. *)
Definition fittedRatio `{Toolkit} (rect : QRectF.t) (v : QGraphicsView.t) : R :=
  let v' := QGraphicsView_fitInView rect v in
  IZR (QRect.width (viewport_geometry v')) /
  QRectF.width (mapToScene_boundingRect v' (viewport_geometry v')).

(** The rectangle [fitInView] asks the toolkit to fit: the bounding
    rectangle of the items, padded. *)
Definition fitRect `{Constants} (items : list Item.t) : QRectF.t :=
  let adj := std_max 0 fitall_padding in
  QRectF.adjust (- adj) (- adj) adj adj (View.itemsBoundingRect items).

(** The state [fitInView] leaves behind for a scene with [items]. *)
Definition fitted `{Constants} `{Toolkit} (items : list Item.t) (w : World) : World :=
  let rect := fitRect items in
  rescaled
    (View.normalized
       (View.capped (_scaleFactor (view w)) (fittedRatio rect (base w))))
    (mkWorld (view w) (QGraphicsView_fitInView rect (base w))
             (heap w) (connections w) (emitted w)).

(** The scene after one remove command per item has been pushed, in
    the order of the list. *)
Definition pushAll (sid : SceneId) (items : list Item.t) (s : Scene.t) : Scene.t :=
  fold_left (fun s item => Scene.push (Scene.ItemRemove sid item) s) items s.

(** The cursor after the lambda of [setScene] has run for [newMode]. *)
Definition cursorFor (newMode : Scene.Mode) (current : CursorShape) : CursorShape :=
  match newMode with
  | Scene.NormalMode => ArrowCursor
  | Scene.WireMode => CrossCursor
  | Scene.OtherMode _ => current
  end.

(** [n] presses of Ctrl+'+'. *)
Fixpoint pressPlus `{Constants} `{Toolkit} (n : nat) : M unit :=
  match n with
  | O => ret tt
  | S n' =>
      pressPlus n' ;;
      View.keyPressEvent {| modifiers := ControlModifier; key := Key_Plus |}
  end.

(** [n] notches of Ctrl+wheel-up. *)
Fixpoint wheelUp `{Constants} `{Toolkit} (n : nat) : M unit :=
  match n with
  | O => ret tt
  | S n' =>
      wheelUp n' ;;
      View.wheelEvent {| wheel_modifiers := ControlModifier; angleDelta_y := 120 |}
  end.

(** A pan gesture after the middle button went down: the pointer moves
    through [moves], then the button is released. *)
Fixpoint drag `{Toolkit} (moves : list QPointF.t) : M unit :=
  match moves with
  | [] => ret tt
  | p :: moves' =>
      View.mouseMoveEvent {| button := NoButton; position := p |} ;;
      drag moves'
  end.

(** ** Sample instances *)

(** Sample values for the constants of [view.hpp]. *)
Definition sample_constants : Constants :=
  {| zoom_factor_min := / 4;
     zoom_factor_max := 10;
     zoom_factor_step := / 10;
     fitall_padding := 20 |}.

(** A sample toolkit: a viewport of 164 by 164 pixels that shows the
    scene through its transform alone (a scale and a translation, no
    scroll offset), and fits a rectangle as Qt does, leaving a margin of
    two pixels. *)
Definition sample_viewport : QRect.t := QRect.mk 0 0 164 164.

Definition sample_mapToScene (v : QGraphicsView.t) (p : QPoint.t) : QPointF.t :=
  let t := QGraphicsView.transform v in
  QPointF.mk ((IZR (QPoint.x p) - QTransform.dx t) / QTransform.m11 t)
             ((IZR (QPoint.y p) - QTransform.dy t) / QTransform.m22 t).

Definition sample_mapRect (v : QGraphicsView.t) (r : QRect.t) : QRectF.t :=
  let t := QGraphicsView.transform v in
  QRectF.mk ((IZR (QRect.x r) - QTransform.dx t) / QTransform.m11 t)
            ((IZR (QRect.y r) - QTransform.dy t) / QTransform.m22 t)
            (IZR (QRect.width r) / QTransform.m11 t)
            (IZR (QRect.height r) / QTransform.m22 t).

Definition sample_fitInView (rect : QRectF.t) (v : QGraphicsView.t) : QGraphicsView.t :=
  if QRectF.isNull rect then v else
  let ratio := qMin ((164 - 4) / QRectF.width rect) ((164 - 4) / QRectF.height rect) in
  QGraphicsView.setTransform (QTransform.fromScale ratio ratio) v.

Definition sample_toolkit : Toolkit :=
  {| mapToScene := sample_mapToScene;
     mapToScene_boundingRect := sample_mapRect;
     viewport_rect := fun _ => sample_viewport;
     viewport_geometry := fun _ => sample_viewport;
     QGraphicsView_fitInView := sample_fitInView |}.

Definition sample_base : QGraphicsView.t :=
  {| QGraphicsView.transform := QTransform.fromScale 1 1;
     QGraphicsView.transformationAnchor := AnchorUnderMouse;
     QGraphicsView.sceneRect := QRectF.mk (-1000) (-1000) 2000 2000;
     QGraphicsView.cursor := ArrowCursor;
     QGraphicsView.renderHint_Antialiasing := false;
     QGraphicsView.scene := None;
     QGraphicsView.handled := [] |}.

Definition sample_view : ViewData :=
  {| _scene := None;
     _settings := {| antialiasing := false |};
     _scaleFactor := 0;
     _mode := NormalMode;
     _panStart := QPointF.mk 0 0 |}.

(** A view with no scene attached. *)
Definition sample_world : World :=
  {| view := sample_view; base := sample_base; heap := ∅;
     connections := []; emitted := [] |}.

Definition empty_scene : Scene.t :=
  {| Scene.mode := Scene.NormalMode; Scene.items := [];
     Scene.selectedTopLevelItems := []; Scene.wirePosture := false;
     Scene.wirePoints := []; Scene.undoStack := [] |}.

Definition item_a : Item.t :=
  {| Item.id := 1; Item.boundingRect := QRectF.mk 0 0 40 20;
     Item.scenePos := QPointF.mk 100 100 |}.

Definition item_b : Item.t :=
  {| Item.id := 2; Item.boundingRect := QRectF.mk 0 0 10 10;
     Item.scenePos := QPointF.mk 300 50 |}.

(** A scene in normal mode with two items, both selected. *)
Definition sample_scene : Scene.t :=
  {| Scene.mode := Scene.NormalMode; Scene.items := [item_a; item_b];
     Scene.selectedTopLevelItems := [item_a; item_b];
     Scene.wirePosture := false; Scene.wirePoints := [];
     Scene.undoStack := [] |}.

(** The sample view with [sample_scene] attached at address 0. *)
Definition sample_world_scene : World :=
  {| view := set_scene (Some 0%nat) sample_view;
     base := QGraphicsView.setScene (Some 0%nat) sample_base;
     heap := {[ 0%nat := sample_scene ]};
     connections := [0%nat]; emitted := [] |}.

(** The sample view, zoomed out to the minimum, with the empty scene
    attached at address 0. *)
Definition sample_world_empty_scene : World :=
  {| view := set_scene (Some 0%nat) sample_view;
     base := QGraphicsView.setScene (Some 0%nat) sample_base;
     heap := {[ 0%nat := empty_scene ]};
     connections := [0%nat]; emitted := [] |}.

(** * Properties *)

(** ** Toolkit arithmetic *)

Lemma qMin_Rmin a b : qMin a b = Rmin a b.
Proof.
  unfold qMin, Rmin.
  destruct (Rlt_dec a b), (Rle_dec a b); lra.
Qed.

Lemma qMax_Rmax a b : qMax a b = Rmax a b.
Proof.
  unfold qMax, Rmax.
  destruct (Rlt_dec a b), (Rle_dec a b); lra.
Qed.

Lemma std_min_Rmin a b : std_min a b = Rmin a b.
Proof.
  unfold std_min, Rmin.
  destruct (Rlt_dec b a), (Rle_dec a b); lra.
Qed.

Lemma std_min_le_l a b : std_min a b <= a.
Proof. rewrite std_min_Rmin. apply Rmin_l. Qed.

Lemma std_min_le_r a b : std_min a b <= b.
Proof. rewrite std_min_Rmin. apply Rmin_r. Qed.

Lemma std_min_pos a b : 0 < a -> 0 < b -> 0 < std_min a b.
Proof. intros. unfold std_min. destruct (Rlt_dec b a); lra. Qed.

Lemma qBound_range v : 0 <= qBound 0 v 1 <= 1.
Proof.
  unfold qBound, qMax, qMin.
  destruct (Rlt_dec 1 v); destruct (Rlt_dec 0 _); lra.
Qed.

Lemma qBound_inside v : 0 <= v <= 1 -> qBound 0 v 1 = v.
Proof.
  intros Hv. unfold qBound, qMax, qMin.
  destruct (Rlt_dec 1 v); destruct (Rlt_dec 0 _); lra.
Qed.

Lemma qBound_ge v s : v <= 1 -> 0 <= s -> v <= qBound 0 (v + s) 1.
Proof.
  intros Hv Hs. unfold qBound, qMax, qMin.
  destruct (Rlt_dec 1 (v + s)); destruct (Rlt_dec 0 _); lra.
Qed.

Lemma Rltb_true a b : a < b -> Rltb a b = true.
Proof. intros. unfold Rltb. destruct (Rlt_dec a b); [reflexivity | lra]. Qed.

Lemma Rltb_false a b : b <= a -> Rltb a b = false.
Proof. intros. unfold Rltb. destruct (Rlt_dec a b); [lra | reflexivity]. Qed.

(** ** The zoom formulas *)

Section ZoomFormulas.
Context {C : Constants}.
Hypothesis min_pos : 0 < zoom_factor_min.
Hypothesis min_lt_max : zoom_factor_min < zoom_factor_max.

Lemma log_span_pos : 0 < ln zoom_factor_max - ln zoom_factor_min.
Proof.
  pose proof (ln_increasing _ _ min_pos min_lt_max). lra.
Qed.

Lemma ln_quotient a b : 0 < a -> 0 < b -> ln (a / b) = ln a - ln b.
Proof.
  intros Ha Hb. unfold Rdiv.
  rewrite ln_mult by (try apply Rinv_0_lt_compat; assumption).
  rewrite ln_Rinv by assumption. ring.
Qed.

Lemma normalized_log z :
  0 < z ->
  View.normalized z =
  (ln z - ln zoom_factor_min) / (ln zoom_factor_max - ln zoom_factor_min).
Proof.
  intros Hz. unfold View.normalized.
  rewrite !ln_quotient by lra.
  pose proof log_span_pos. field. lra.
Qed.

Lemma interpolated_pos f : 0 < View.interpolated f.
Proof. unfold View.interpolated. apply exp_pos. Qed.

Lemma normalized_interpolated f : View.normalized (View.interpolated f) = f.
Proof.
  rewrite normalized_log by apply interpolated_pos.
  unfold View.interpolated. rewrite ln_exp.
  pose proof log_span_pos. field. lra.
Qed.

Lemma interpolated_normalized z : 0 < z -> View.interpolated (View.normalized z) = z.
Proof.
  intros Hz. rewrite normalized_log by assumption.
  unfold View.interpolated.
  pose proof log_span_pos.
  replace (_ + _) with (ln z) by (field; lra).
  apply exp_ln; assumption.
Qed.

Lemma interpolated_le f g : f <= g -> View.interpolated f <= View.interpolated g.
Proof.
  intros Hfg. unfold View.interpolated.
  pose proof log_span_pos.
  destruct Hfg as [Hlt | ->]; [left; apply exp_increasing; nra | right; reflexivity].
Qed.

Lemma interpolated_lt_inv f g : View.interpolated f < View.interpolated g -> f < g.
Proof.
  intros Hlt. destruct (Rlt_dec f g) as [|Hn]; [assumption|].
  apply Rnot_lt_le, interpolated_le in Hn. lra.
Qed.

Lemma interpolated_0 : View.interpolated 0 = zoom_factor_min.
Proof.
  unfold View.interpolated. rewrite Rmult_0_r, Rplus_0_r. apply exp_ln, min_pos.
Qed.

Lemma interpolated_1 : View.interpolated 1 = zoom_factor_max.
Proof.
  unfold View.interpolated.
  replace (_ + _) with (ln zoom_factor_max) by ring.
  apply exp_ln. lra.
Qed.

Lemma normalized_range z :
  0 < z ->
  (0 <= View.normalized z <= 1 <-> zoom_factor_min <= z <= zoom_factor_max).
Proof.
  intros Hz.
  rewrite <- (interpolated_normalized z Hz) at 3 4.
  rewrite <- interpolated_0, <- interpolated_1.
  split.
  - intros [H0 H1]. split; apply interpolated_le; assumption.
  - intros [H0 H1]. split.
    + destruct (Rle_dec 0 (View.normalized z)) as [|Hn]; [assumption|].
      apply Rnot_le_lt, Rlt_le in Hn. apply interpolated_le in Hn.
      assert (E : View.interpolated (View.normalized z) = View.interpolated 0) by lra.
      apply (f_equal View.normalized) in E.
      rewrite !normalized_interpolated in E. lra.
    + destruct (Rle_dec (View.normalized z) 1) as [|Hn]; [assumption|].
      apply Rnot_le_lt, Rlt_le in Hn. apply interpolated_le in Hn.
      assert (E : View.interpolated (View.normalized z) = View.interpolated 1) by lra.
      apply (f_equal View.normalized) in E.
      rewrite !normalized_interpolated in E. lra.
Qed.

End ZoomFormulas.

(** ** Running the methods *)

Ltac unfold_monad :=
  unfold exec, with_view, with_base, emit, connect_modeChanged, onScene,
         ifScene, deref, bind, ret, gets, modify in *.

Lemma base_eta (v : QGraphicsView.t) :
  QGraphicsView.setSceneRect (QGraphicsView.sceneRect v) v = v.
Proof. destruct v; reflexivity. Qed.

Lemma world_eta (w : World) :
  mkWorld (view w) (base w) (heap w) (connections w) (emitted w) = w.
Proof. destruct w; reflexivity. Qed.

Section Running.
Context {C : Constants} {T : Toolkit}.

Lemma updateSceneRect_run w :
  View.updateSceneRect w =
  Some (tt, mkWorld (view w) (sceneRectUpdated (base w))
                    (heap w) (connections w) (emitted w)).
Proof.
  unfold View.updateSceneRect, sceneRectUpdated, properlyInside, paddedVisibleRect.
  unfold_monad.
  destruct (QRect.contains _ _ true); simpl; [rewrite world_eta|]; reflexivity.
Qed.

Lemma view_eta (v : ViewData) : set_scaleFactor (_scaleFactor v) v = v.
Proof. destruct v; reflexivity. Qed.

Lemma updateScale_run w :
  View.updateScale w = Some (tt, rescaled (_scaleFactor (view w)) w).
Proof.
  unfold View.updateScale, bind at 1 2 3 4. unfold gets at 1, with_base, modify.
  simpl. rewrite updateSceneRect_run. unfold rescaled.
  rewrite view_eta. reflexivity.
Qed.

Lemma setZoomValue_run factor w :
  View.setZoomValue factor w = Some (tt, rescaled (View.normalized factor) w).
Proof.
  unfold View.setZoomValue, bind, with_view, modify.
  rewrite updateScale_run. reflexivity.
Qed.

Lemma sceneRectUpdated_transform v :
  QGraphicsView.transform (sceneRectUpdated v) = QGraphicsView.transform v.
Proof. unfold sceneRectUpdated. destruct (properlyInside v); reflexivity. Qed.

Lemma sceneRectUpdated_cursor v :
  QGraphicsView.cursor (sceneRectUpdated v) = QGraphicsView.cursor v.
Proof. unfold sceneRectUpdated. destruct (properlyInside v); reflexivity. Qed.

Lemma rescaled_scaleFactor f w : _scaleFactor (view (rescaled f w)) = f.
Proof. reflexivity. Qed.

Lemma rescaled_transform f w :
  QGraphicsView.transform (base (rescaled f w)) =
  QTransform.fromScale (View.interpolated f) (View.interpolated f).
Proof. unfold rescaled. simpl. apply sceneRectUpdated_transform. Qed.

Lemma rescaled_emitted f w :
  emitted (rescaled f w) = emitted w ++ [zoomChanged (View.interpolated f)].
Proof. reflexivity. Qed.

Lemma rescaled_heap f w : heap (rescaled f w) = heap w.
Proof. reflexivity. Qed.

Lemma rescaled_scene f w : _scene (view (rescaled f w)) = _scene (view w).
Proof. reflexivity. Qed.

End Running.

(** ** C1: the zoom interpolation round-trips *)

(** C1. For every normalized factor in [0,1], [updateScale] applies the
    exponentially interpolated zoom, and the normalisation formula of
    [setZoomValue] maps that zoom back to the factor; [setZoomValue(1.0)]
    leaves the view at an actual zoom of exactly 1. *)
Theorem zoom_round_trip {C : Constants} {T : Toolkit} (w : World) :
  0 < zoom_factor_min ->
  zoom_factor_min < zoom_factor_max ->
  0 <= _scaleFactor (view w) <= 1 ->
  (exists w' zoom,
      exec View.updateScale w = Some w' /\
      QGraphicsView.transform (base w') = QTransform.fromScale zoom zoom /\
      emitted w' = emitted w ++ [zoomChanged zoom] /\
      zoom = View.interpolated (_scaleFactor (view w)) /\
      View.normalized zoom = _scaleFactor (view w)) /\
  (exists w1,
      exec (View.setZoomValue 1) w = Some w1 /\
      View.interpolated (_scaleFactor (view w1)) = 1 /\
      QGraphicsView.transform (base w1) = QTransform.fromScale 1 1 /\
      emitted w1 = emitted w ++ [zoomChanged 1]).
Proof.
  intros Hmin Hlt Hf. split.
  - eexists. exists (View.interpolated (_scaleFactor (view w))).
    unfold exec. rewrite updateScale_run.
    split; [reflexivity|].
    rewrite rescaled_transform, rescaled_emitted.
    repeat split; try reflexivity.
    apply normalized_interpolated; assumption.
  - eexists. unfold exec. rewrite setZoomValue_run.
    split; [reflexivity|].
    rewrite rescaled_transform, rescaled_emitted, rescaled_scaleFactor.
    rewrite (interpolated_normalized Hmin Hlt 1) by lra.
    repeat split; reflexivity.
Qed.

Lemma zoom_round_trip_witness :
  exists w1,
    exec (@View.setZoomValue sample_constants sample_toolkit 1) sample_world = Some w1 /\
    @View.interpolated sample_constants (_scaleFactor (view w1)) = 1.
Proof.
  destruct (@zoom_round_trip sample_constants sample_toolkit sample_world)
    as [_ (w1 & E & Z & _)].
  - simpl. lra.
  - simpl. lra.
  - simpl. lra.
  - exists w1. split; assumption.
Defined.

(** ** Zooming by key and by wheel *)

Lemma controlHeld_Control : controlHeld ControlModifier = true.
Proof. reflexivity. Qed.

Section Zooming.
Context {C : Constants} {T : Toolkit}.

Lemma keyPress_plus_run e w :
  controlHeld (modifiers e) = true ->
  key e = Key_Plus ->
  View.keyPressEvent e w =
  Some (tt, rescaled (_scaleFactor (view w) + zoom_factor_step) w).
Proof.
  intros Hc Hk. unfold View.keyPressEvent. rewrite Hc, Hk. simpl.
  unfold bind, with_view, modify. rewrite updateScale_run. reflexivity.
Qed.

Lemma keyPress_minus_run e w :
  controlHeld (modifiers e) = true ->
  key e = Key_Minus ->
  View.keyPressEvent e w =
  Some (tt, rescaled (_scaleFactor (view w) - zoom_factor_step) w).
Proof.
  intros Hc Hk. unfold View.keyPressEvent. rewrite Hc, Hk. simpl.
  unfold bind, with_view, modify. rewrite updateScale_run. reflexivity.
Qed.

Lemma keyPress_0_run e w :
  controlHeld (modifiers e) = true ->
  key e = Key_0 ->
  View.keyPressEvent e w =
  Some (tt, rescaled (View.normalized 1) (rescaled (View.normalized 1) w)).
Proof.
  intros Hc Hk. unfold View.keyPressEvent. rewrite Hc, Hk. simpl.
  unfold bind. rewrite setZoomValue_run, updateScale_run. reflexivity.
Qed.

(** The factor a Ctrl+wheel event stores. *)
Lemma wheel_run e w :
  controlHeld (wheel_modifiers e) = true ->
  View.wheelEvent e w =
  Some (tt, rescaled
              (qBound 0
                 (if (angleDelta_y e >? 0)%Z
                  then _scaleFactor (view w) + zoom_factor_step
                  else if (angleDelta_y e <? 0)%Z
                       then _scaleFactor (view w) - zoom_factor_step
                       else _scaleFactor (view w)) 1) w).
Proof.
  intros Hc. unfold View.wheelEvent. rewrite Hc.
  destruct (angleDelta_y e >? 0)%Z; [|destruct (angleDelta_y e <? 0)%Z];
    unfold bind, with_view, modify, ret; rewrite updateScale_run;
    destruct w as [[] ? ? ? ?]; reflexivity.
Qed.

Lemma wheel_idle e w :
  controlHeld (wheel_modifiers e) = false ->
  View.wheelEvent e w = Some (tt, w).
Proof. intros Hc. unfold View.wheelEvent. rewrite Hc. reflexivity. Qed.

Lemma wheelUp_total n w : exists wn, exec (wheelUp n) w = Some wn.
Proof.
  induction n as [|n [wn IH]]; simpl.
  - exists w. reflexivity.
  - unfold exec, bind in *.
    destruct (wheelUp n w) as [[[] w1]|]; [|discriminate].
    rewrite wheel_run by reflexivity. eexists. reflexivity.
Qed.

Lemma pressPlus_total n w : exists wn, exec (pressPlus n) w = Some wn.
Proof.
  induction n as [|n [wn IH]]; simpl.
  - exists w. reflexivity.
  - unfold exec, bind in *.
    destruct (pressPlus n w) as [[[] w1]|]; [|discriminate].
    rewrite keyPress_plus_run by reflexivity. eexists. reflexivity.
Qed.

Lemma wheelUp_step n w wn :
  exec (wheelUp n) w = Some wn ->
  exec (wheelUp (S n)) w =
  Some (rescaled (qBound 0 (_scaleFactor (view wn) + zoom_factor_step) 1) wn).
Proof.
  simpl. unfold exec, bind.
  destruct (wheelUp n w) as [[[] w1]|]; [|discriminate].
  intros [= ->]. rewrite wheel_run by reflexivity. reflexivity.
Qed.

Lemma pressPlus_step n w wn :
  exec (pressPlus n) w = Some wn ->
  exec (pressPlus (S n)) w =
  Some (rescaled (_scaleFactor (view wn) + zoom_factor_step) wn).
Proof.
  simpl. unfold exec, bind.
  destruct (pressPlus n w) as [[[] w1]|]; [|discriminate].
  intros [= ->]. rewrite keyPress_plus_run by reflexivity. reflexivity.
Qed.

Lemma wheelUp_le_1 n w wn :
  _scaleFactor (view w) <= 1 ->
  exec (wheelUp n) w = Some wn ->
  _scaleFactor (view wn) <= 1.
Proof.
  intros Hw. destruct n as [|n].
  - simpl. unfold exec, ret. intros [= <-]. assumption.
  - destruct (wheelUp_total n w) as [wm Hm].
    rewrite (wheelUp_step _ _ _ Hm). intros [= <-].
    rewrite rescaled_scaleFactor. apply qBound_range.
Qed.

Lemma pressPlus_factor n w wn :
  exec (pressPlus n) w = Some wn ->
  _scaleFactor (view wn) = _scaleFactor (view w) + INR n * zoom_factor_step.
Proof.
  revert wn. induction n as [|n IH]; intros wn.
  - simpl. unfold exec, ret. intros [= <-]. lra.
  - destruct (pressPlus_total n w) as [wm Hm].
    rewrite (pressPlus_step _ _ _ Hm). intros [= <-].
    rewrite rescaled_scaleFactor, (IH _ Hm), S_INR. ring.
Qed.

End Zooming.

(** ** C3: repeated zoom-in *)

(** C3. With a non-negative step, every further zoom-in leaves the
    normalized factor at least where it was, as long as it was not past
    the boundary 1: on the wheel path the factor after [n+1] notches is
    at least the factor after [n] notches and never above 1, and one
    wheel event brings any factor into [0,1]; on the keyboard path each
    press adds exactly the step, without clamping. *)
Theorem zoom_in_monotone {C : Constants} {T : Toolkit} (w : World) (n : nat) :
  0 <= zoom_factor_step ->
  _scaleFactor (view w) <= 1 ->
  (exists wn wn',
      exec (wheelUp n) w = Some wn /\
      exec (wheelUp (S n)) w = Some wn' /\
      _scaleFactor (view wn) <= _scaleFactor (view wn') <= 1) /\
  (forall w0 : World, exists w1,
      exec (wheelUp 1) w0 = Some w1 /\
      0 <= _scaleFactor (view w1) <= 1) /\
  (exists kn kn',
      exec (pressPlus n) w = Some kn /\
      exec (pressPlus (S n)) w = Some kn' /\
      _scaleFactor (view kn') = _scaleFactor (view kn) + zoom_factor_step /\
      _scaleFactor (view kn) <= _scaleFactor (view kn') /\
      _scaleFactor (view kn') =
        _scaleFactor (view w) + INR (S n) * zoom_factor_step).
Proof.
  intros Hs Hw. repeat split.
  - destruct (wheelUp_total n w) as [wn Hn].
    exists wn. eexists. split; [exact Hn|].
    split; [apply (wheelUp_step _ _ _ Hn)|].
    rewrite rescaled_scaleFactor.
    pose proof (wheelUp_le_1 _ _ _ Hw Hn).
    split; [apply qBound_ge; assumption | apply qBound_range].
  - intros w0. eexists. split.
    + apply (wheelUp_step 0 w0 w0). reflexivity.
    + rewrite rescaled_scaleFactor. apply qBound_range.
  - destruct (pressPlus_total n w) as [kn Hn].
    exists kn. eexists. split; [exact Hn|].
    split; [apply (pressPlus_step _ _ _ Hn)|].
    rewrite rescaled_scaleFactor, (pressPlus_factor _ _ _ Hn), S_INR.
    repeat split; lra.
Qed.

Lemma zoom_in_monotone_witness :
  exists w1,
    exec (@wheelUp sample_constants sample_toolkit 1) sample_world = Some w1 /\
    0 <= _scaleFactor (view w1) <= 1.
Proof.
  destruct (@zoom_in_monotone sample_constants sample_toolkit sample_world 3)
    as (_ & H & _).
  - simpl. lra.
  - simpl. lra.
  - exact (H sample_world).
Defined.

(** The keyboard path overshoots the boundary: from factor 1, one
    Ctrl+'+' stores 1 plus the step. *)
Lemma keyboard_overshoot {C : Constants} {T : Toolkit} (w : World) :
  _scaleFactor (view w) = 1 ->
  exists w', exec (pressPlus 1) w = Some w' /\
             _scaleFactor (view w') = 1 + zoom_factor_step.
Proof.
  intros Hw. eexists. split.
  - apply (pressPlus_step 0 w w). reflexivity.
  - rewrite rescaled_scaleFactor, Hw. reflexivity.
Qed.

(** ** Fitting the scene into the view *)

Section Fitting.
Context {C : Constants} {T : Toolkit}.

Lemma fitInView_no_scene w :
  _scene (view w) = None ->
  View.fitInView w = Some (tt, w).
Proof.
  intros Hs. unfold View.fitInView, bind, gets. rewrite Hs. reflexivity.
Qed.

Lemma fitInView_run w sid s :
  _scene (view w) = Some sid ->
  heap w !! sid = Some s ->
  View.fitInView w = Some (tt, fitted (Scene.items s) w).
Proof.
  intros Hs Hh. unfold View.fitInView, bind at 1, gets at 1. rewrite Hs.
  unfold bind at 1, deref. rewrite Hh.
  unfold bind, gets, with_base, modify. simpl.
  rewrite setZoomValue_run. reflexivity.
Qed.

Lemma fitted_scaleFactor items w :
  _scaleFactor (view (fitted items w)) =
  View.normalized
    (View.capped (_scaleFactor (view w)) (fittedRatio (fitRect items) (base w))).
Proof. reflexivity. Qed.

Lemma fitted_transform items w :
  QGraphicsView.transform (base (fitted items w)) =
  QTransform.fromScale (View.interpolated (_scaleFactor (view (fitted items w))))
                       (View.interpolated (_scaleFactor (view (fitted items w)))).
Proof. unfold fitted. rewrite rescaled_transform. reflexivity. Qed.

Lemma fitted_emitted items w :
  emitted (fitted items w) =
  emitted w ++ [zoomChanged (View.interpolated (_scaleFactor (view (fitted items w))))].
Proof. reflexivity. Qed.

Lemma fitted_heap items w : heap (fitted items w) = heap w.
Proof. reflexivity. Qed.

Lemma capped_pos cur r : 0 < r -> 0 < View.capped cur r.
Proof.
  intros Hr. unfold View.capped, Rltb.
  destruct (Rlt_dec cur 1); apply std_min_pos; lra.
Qed.

Lemma capped_le_ratio cur r : View.capped cur r <= r.
Proof.
  unfold View.capped. destruct (Rltb cur 1); apply std_min_le_l.
Qed.

End Fitting.

(** ** C2: the range of the stored factor *)

(** C2, as the code has it. The wheel path stores a factor in [0,1]
    whenever Ctrl is held and leaves the state alone otherwise;
    [setZoomValue(z)], for a positive [z], stores the normalisation of
    [z], which lies in [0,1] exactly when [z] lies between the minimum
    and the maximum zoom; the same holds of the reset (z = 1) and of
    [fitInView], whose [z] is the capped ratio. *)
Theorem factor_range {C : Constants} {T : Toolkit} (w : World) :
  0 < zoom_factor_min ->
  zoom_factor_min < zoom_factor_max ->
  (forall e, exists w',
      exec (View.wheelEvent e) w = Some w' /\
      (controlHeld (wheel_modifiers e) = true -> 0 <= _scaleFactor (view w') <= 1) /\
      (controlHeld (wheel_modifiers e) = false -> w' = w)) /\
  (forall z, 0 < z -> exists w',
      exec (View.setZoomValue z) w = Some w' /\
      _scaleFactor (view w') = View.normalized z /\
      (0 <= _scaleFactor (view w') <= 1 <->
       zoom_factor_min <= z <= zoom_factor_max)) /\
  (forall e, controlHeld (modifiers e) = true -> key e = Key_0 -> exists w',
      exec (View.keyPressEvent e) w = Some w' /\
      _scaleFactor (view w') = View.normalized 1 /\
      (0 <= _scaleFactor (view w') <= 1 <->
       zoom_factor_min <= 1 <= zoom_factor_max)) /\
  (forall sid s,
      _scene (view w) = Some sid -> heap w !! sid = Some s ->
      let z := View.capped (_scaleFactor (view w))
                 (fittedRatio (fitRect (Scene.items s)) (base w)) in
      0 < z ->
      exists w',
        exec View.fitInView w = Some w' /\
        _scaleFactor (view w') = View.normalized z /\
        (0 <= _scaleFactor (view w') <= 1 <->
         zoom_factor_min <= z <= zoom_factor_max)).
Proof.
  intros Hmin Hlt. repeat split.
  - intros e. unfold exec.
    destruct (controlHeld (wheel_modifiers e)) eqn:Hc.
    + rewrite wheel_run by assumption. eexists. split; [reflexivity|].
      split; [|discriminate]. intros _.
      rewrite rescaled_scaleFactor. apply qBound_range.
    + rewrite wheel_idle by assumption. exists w.
      split; [reflexivity|]. split; [discriminate | reflexivity].
  - intros z Hz. unfold exec. rewrite setZoomValue_run.
    eexists. split; [reflexivity|]. rewrite rescaled_scaleFactor.
    split; [reflexivity | apply normalized_range; assumption].
  - intros e Hc Hk. unfold exec. rewrite keyPress_0_run by assumption.
    eexists. split; [reflexivity|]. rewrite rescaled_scaleFactor.
    split; [reflexivity | apply normalized_range; lra].
  - intros sid s Hs Hh z Hz. unfold exec.
    rewrite (fitInView_run _ _ _ Hs Hh).
    eexists. split; [reflexivity|]. rewrite fitted_scaleFactor.
    split; [reflexivity | apply normalized_range; assumption].
Qed.

Lemma factor_range_witness :
  exists w',
    exec (@View.setZoomValue sample_constants sample_toolkit 1) sample_world = Some w' /\
    0 <= _scaleFactor (view w') <= 1.
Proof.
  destruct (@factor_range sample_constants sample_toolkit sample_world)
    as (_ & H & _).
  - simpl. lra.
  - simpl. lra.
  - destruct (H 1) as (w' & E & _ & R); [lra|].
    exists w'. split; [exact E|]. apply R. simpl. lra.
Defined.

(** The invariant of C2 is not kept by [setZoomValue]: from a factor in
    [0,1], [setZoomValue(20)] with a maximum zoom of 10 stores a factor
    outside [0,1]. *)
Lemma factor_range_counterexample :
  exists w',
    exec (@View.setZoomValue sample_constants sample_toolkit 20) sample_world = Some w' /\
    0 <= _scaleFactor (view sample_world) <= 1 /\
    ~ 0 <= _scaleFactor (view w') <= 1.
Proof.
  unfold exec. rewrite setZoomValue_run. eexists. split; [reflexivity|].
  split; [simpl; lra|]. rewrite rescaled_scaleFactor.
  intros H.
  apply (@normalized_range sample_constants) in H; simpl in *; lra.
Qed.

(** ** C4: fitting an empty scene *)

Lemma fitRect_nil {C : Constants} :
  fitRect [] =
  let p := std_max 0 fitall_padding in QRectF.mk (- p) (- p) (p + p) (p + p).
Proof.
  unfold fitRect, QRectF.adjust. simpl. f_equal; ring.
Qed.

(** C4, as the code has it. With a scene attached that has no items,
    [fitInView] returns without failure, but it is not a no-op: it has
    the toolkit fit the padding-only rectangle, caps the ratio it then
    measures by 1 (previous factor below 1) or by the previous factor,
    and stores that value through [setZoomValue]; the scene is left as
    it was. *)
Theorem fit_empty_scene {C : Constants} {T : Toolkit} (w : World)
    (sid : SceneId) (s : Scene.t) :
  _scene (view w) = Some sid ->
  heap w !! sid = Some s ->
  Scene.items s = [] ->
  exists w',
    exec View.fitInView w = Some w' /\
    let p := std_max 0 fitall_padding in
    let ratio := fittedRatio (QRectF.mk (- p) (- p) (p + p) (p + p)) (base w) in
    let cap := if Rltb (_scaleFactor (view w)) 1 then 1 else _scaleFactor (view w) in
    let zoom := View.interpolated (View.normalized (std_min ratio cap)) in
    _scaleFactor (view w') = View.normalized (std_min ratio cap) /\
    QGraphicsView.transform (base w') = QTransform.fromScale zoom zoom /\
    emitted w' = emitted w ++ [zoomChanged zoom] /\
    heap w' = heap w.
Proof.
  intros Hs Hh Hi. unfold exec. rewrite (fitInView_run _ _ _ Hs Hh), Hi.
  eexists. split; [reflexivity|]. cbv zeta.
  unfold fitted. rewrite rescaled_scaleFactor, rescaled_transform, rescaled_emitted.
  rewrite fitRect_nil. cbv zeta. unfold View.capped. simpl.
  destruct (Rltb (_scaleFactor (view w)) 1); repeat split; reflexivity.
Qed.

Lemma sample_heap_lookup : heap sample_world_empty_scene !! 0%nat = Some empty_scene.
Proof. reflexivity. Qed.

Lemma fit_empty_scene_witness :
  exists w',
    exec (@View.fitInView sample_constants sample_toolkit) sample_world_empty_scene = Some w' /\
    heap w' = heap sample_world_empty_scene.
Proof.
  destruct (@fit_empty_scene sample_constants sample_toolkit
              sample_world_empty_scene 0%nat empty_scene)
    as (w' & E & _ & _ & _ & H).
  - reflexivity.
  - reflexivity.
  - reflexivity.
  - exists w'. split; assumption.
Defined.

Lemma sample_fitRect :
  @fitRect sample_constants [] = QRectF.mk (- (20)) (- (20)) (20 + 20) (20 + 20).
Proof.
  rewrite fitRect_nil. cbv zeta. unfold std_max. simpl.
  destruct (Rlt_dec 0 20); [reflexivity | lra].
Qed.

Lemma sample_fittedRatio v :
  @fittedRatio sample_toolkit (@fitRect sample_constants []) v = 4.
Proof.
  rewrite sample_fitRect. unfold fittedRatio. simpl.
  unfold sample_fitInView, QRectF.isNull, Reqb. simpl.
  destruct (Req_dec_T (20 + 20) 0); [lra|]. simpl.
  change (QRect.width sample_viewport) with 164%Z.
  unfold qMin. destruct (Rlt_dec _ _); simpl; lra.
Qed.

(** On the sample view, zoomed out to the minimum (factor 0) and with an
    empty scene attached, [fitInView] changes the stored factor. *)
Lemma fit_empty_scene_counterexample :
  exists w',
    exec (@View.fitInView sample_constants sample_toolkit) sample_world_empty_scene = Some w' /\
    _scaleFactor (view w') <> _scaleFactor (view sample_world_empty_scene).
Proof.
  unfold exec.
  rewrite (fitInView_run sample_world_empty_scene 0%nat empty_scene)
    by reflexivity.
  eexists. split; [reflexivity|].
  rewrite fitted_scaleFactor. simpl Scene.items.
  rewrite sample_fittedRatio.
  unfold View.capped. simpl _scaleFactor.
  rewrite Rltb_true by lra.
  unfold std_min. destruct (Rlt_dec 1 4); [|lra].
  intros H.
  assert (E : @View.interpolated sample_constants (@View.normalized sample_constants 1)
              = @View.interpolated sample_constants 0) by (rewrite H; reflexivity).
  rewrite (@interpolated_normalized sample_constants) in E by (simpl; lra).
  rewrite (@interpolated_0 sample_constants) in E by (simpl; lra).
  simpl in E. lra.
Qed.

(** ** C5: the cap of [fitInView] *)

Section FitCap.
Context {C : Constants}.
Hypothesis min_pos : 0 < zoom_factor_min.
Hypothesis min_lt_max : zoom_factor_min < zoom_factor_max.

Lemma exp_above_tangent x : 1 + x <= exp x.
Proof.
  destruct (Req_dec_T x 0) as [-> | Hx].
  - rewrite exp_0. lra.
  - left. apply exp_ineq1. assumption.
Qed.

(** Past the boundary the stored factor, read as a zoom, is below the
    zoom it stands for, when the zoom range is wide enough. *)
Lemma factor_le_interpolated f :
  1 <= zoom_factor_max ->
  1 <= zoom_factor_max * ln (zoom_factor_max / zoom_factor_min) ->
  1 <= f ->
  f <= View.interpolated f.
Proof.
  intros Hmax Hwide Hf.
  rewrite ln_quotient in Hwide by lra.
  pose proof (log_span_pos min_pos min_lt_max) as Hspan.
  set (S := ln zoom_factor_max - ln zoom_factor_min) in *.
  assert (E : View.interpolated f = zoom_factor_max * exp (S * (f - 1))).
  { unfold View.interpolated.
    replace (ln zoom_factor_min + (ln zoom_factor_max - ln zoom_factor_min) * f)
      with (ln zoom_factor_max + S * (f - 1)) by (unfold S; ring).
    rewrite exp_plus, exp_ln by lra. reflexivity. }
  rewrite E.
  pose proof (exp_above_tangent (S * (f - 1))) as Ht.
  assert (0 <= S * (f - 1)) by nra.
  cut (f <= zoom_factor_max * (1 + S * (f - 1))); [nra|].
  nra.
Qed.

(** A factor below 1 is what every zoom below the maximum has. *)
Lemma factor_lt_1 f :
  View.interpolated f < zoom_factor_max -> f < 1.
Proof.
  intros H. rewrite <- (interpolated_1 min_pos min_lt_max) in H.
  apply (interpolated_lt_inv min_pos min_lt_max). assumption.
Qed.

End FitCap.

(** C5. With a scene attached and a positive measured ratio,
    [fitInView] leaves an actual zoom of at most 1 when the view was
    zoomed out below 1 before, and of at most the previous zoom when it
    was zoomed in above 1 before. The maximum zoom is taken to be at
    least 1; a previous factor past the boundary 1 is covered when
    [zoom_factor_max * ln (zoom_factor_max / zoom_factor_min)] is at
    least 1. *)
Theorem fit_caps_zoom {C : Constants} {T : Toolkit} (w : World)
    (sid : SceneId) (s : Scene.t) :
  0 < zoom_factor_min ->
  zoom_factor_min < zoom_factor_max ->
  1 <= zoom_factor_max ->
  _scaleFactor (view w) <= 1 \/
    1 <= zoom_factor_max * ln (zoom_factor_max / zoom_factor_min) ->
  _scene (view w) = Some sid ->
  heap w !! sid = Some s ->
  0 < fittedRatio (fitRect (Scene.items s)) (base w) ->
  exists w',
    exec View.fitInView w = Some w' /\
    let before := View.interpolated (_scaleFactor (view w)) in
    let after := View.interpolated (_scaleFactor (view w')) in
    QGraphicsView.transform (base w') = QTransform.fromScale after after /\
    emitted w' = emitted w ++ [zoomChanged after] /\
    (before < 1 -> after <= 1) /\
    (1 < before -> after <= before).
Proof.
  intros Hmin Hlt Hmax Hwide Hs Hh Hr. unfold exec.
  rewrite (fitInView_run _ _ _ Hs Hh).
  eexists. split; [reflexivity|]. cbv zeta.
  rewrite fitted_transform, fitted_emitted, fitted_scaleFactor.
  set (f := _scaleFactor (view w)) in *.
  set (r := fittedRatio _ _) in *.
  rewrite (interpolated_normalized Hmin Hlt) by (apply capped_pos; assumption).
  repeat split.
  - intros Hb.
    assert (Hf : f < 1) by (apply (factor_lt_1 Hmin Hlt); lra).
    unfold View.capped. rewrite Rltb_true by assumption. apply std_min_le_r.
  - intros Hb. unfold View.capped, Rltb.
    destruct (Rlt_dec f 1) as [Hf | Hf].
    + pose proof (std_min_le_r r 1). lra.
    + pose proof (std_min_le_r r f).
      cut (f <= View.interpolated f); [lra|].
      destruct Hwide as [Hle | Hwide]; [|apply factor_le_interpolated; lra].
      assert (f = 1) as -> by lra.
      rewrite (interpolated_1 Hmin Hlt). assumption.
Qed.

Lemma sample_wide : 1 <= 10 * ln (10 / / 4).
Proof.
  assert (H : 1 < ln (10 / / 4)).
  { rewrite <- (ln_exp 1) at 1. apply ln_increasing; [apply exp_pos|].
    pose proof exp_le_3. lra. }
  lra.
Qed.

Lemma fit_caps_zoom_witness :
  exists w',
    exec (@View.fitInView sample_constants sample_toolkit) sample_world_empty_scene = Some w' /\
    (@View.interpolated sample_constants (_scaleFactor (view sample_world_empty_scene)) < 1 ->
     @View.interpolated sample_constants (_scaleFactor (view w')) <= 1).
Proof.
  destruct (@fit_caps_zoom sample_constants sample_toolkit
              sample_world_empty_scene 0%nat empty_scene)
    as (w' & E & _ & _ & H & _).
  - simpl. lra.
  - simpl. lra.
  - simpl. lra.
  - right. simpl. exact sample_wide.
  - reflexivity.
  - reflexivity.
  - simpl Scene.items. rewrite sample_fittedRatio. lra.
  - exists w'. split; assumption.
Defined.

(** What the cap compares is the normalized factor: whenever it is
    below 1, that is whenever the previous zoom is below the maximum,
    the zoom after [fitInView] is at most 1. *)
Lemma fit_caps_at_one {C : Constants} {T : Toolkit} (w : World)
    (sid : SceneId) (s : Scene.t) :
  0 < zoom_factor_min ->
  zoom_factor_min < zoom_factor_max ->
  _scene (view w) = Some sid ->
  heap w !! sid = Some s ->
  0 < fittedRatio (fitRect (Scene.items s)) (base w) ->
  _scaleFactor (view w) < 1 ->
  exists w',
    exec View.fitInView w = Some w' /\
    View.interpolated (_scaleFactor (view w')) <= 1.
Proof.
  intros Hmin Hlt Hs Hh Hr Hf. unfold exec.
  rewrite (fitInView_run _ _ _ Hs Hh).
  eexists. split; [reflexivity|].
  rewrite fitted_scaleFactor.
  rewrite (interpolated_normalized Hmin Hlt) by (apply capped_pos; assumption).
  unfold View.capped. rewrite Rltb_true by assumption. apply std_min_le_r.
Qed.

(** ** Rounding and rectangles *)

Lemma qRound_bounds d : d - / 2 <= IZR (qRound d) <= d + / 2.
Proof.
  unfold qRound. destruct (Rle_dec 0 d).
  - pose proof (Zfloor_bound (d + / 2)). lra.
  - pose proof (Zfloor_bound (/ 2 - d)). rewrite opp_IZR. lra.
Qed.

Lemma qRound_IZR z : qRound (IZR z) = z.
Proof.
  pose proof (qRound_bounds (IZR z)) as [Hl Hu].
  assert (qRound (IZR z) < z + 1)%Z by (apply lt_IZR; rewrite plus_IZR; lra).
  assert (z - 1 < qRound (IZR z))%Z by (apply lt_IZR; rewrite minus_IZR; lra).
  lia.
Qed.

Lemma toRect_integral px py pw ph :
  QRectF.toRect (QRectF.mk (IZR px) (IZR py) (IZR pw) (IZR ph)) =
  QRect.mk px py pw ph.
Proof.
  unfold QRectF.toRect. simpl. rewrite !qRound_IZR.
  replace (IZR pw + (IZR px - IZR px) / 2) with (IZR pw) by lra.
  replace (IZR ph + (IZR py - IZR py) / 2) with (IZR ph) by lra.
  rewrite !qRound_IZR. reflexivity.
Qed.

Lemma span_inside (x w : R) (nx nw p n : Z) :
  x - / 2 <= IZR nx <= x + / 2 ->
  (w + (x - IZR nx) / 2) - / 2 <= IZR nw <= (w + (x - IZR nx) / 2) + / 2 ->
  (fst (QRect.span nx (nx + nw - 1)) < fst (QRect.span p (p + n - 1)))%Z ->
  (snd (QRect.span p (p + n - 1)) < snd (QRect.span nx (nx + nw - 1)))%Z ->
  fst (QRectF.span x w) < snd (QRectF.span x w) /\
  fst (QRectF.span x w) <= fst (QRectF.span (IZR p) (IZR n)) /\
  snd (QRectF.span (IZR p) (IZR n)) <= snd (QRectF.span x w).
Proof.
  intros Hx Hw. unfold QRect.span, QRectF.span.
  assert (Hn : IZR n < 0 <-> (n < 0)%Z).
  { split; intros H; [apply lt_IZR | apply (IZR_lt n 0)]; assumption. }
  assert (Hs1 : w < 0 -> (nw <= 0)%Z).
  { intros H. cut (nw < 1)%Z; [lia|]. apply lt_IZR. lra. }
  assert (Hs2 : ~ w < 0 -> (0 <= nw)%Z).
  { intros H. cut (-1 < nw)%Z; [lia|]. apply lt_IZR. lra. }
  destruct (Z.ltb_spec (nx + nw - 1) (nx - 1));
    destruct (Z.ltb_spec (p + n - 1) (p - 1));
    destruct (Rlt_dec w 0) as [Hw0|Hw0];
    destruct (Rlt_dec (IZR n) 0) as [Hn0|Hn0]; simpl; intros H1 H2;
    try (pose proof (Hs1 Hw0)); try (pose proof (Hs2 Hw0));
    try (pose proof (proj1 Hn Hn0)); try (assert (0 <= n)%Z by (destruct (Z.lt_ge_cases n 0) as [N|N]; [apply Hn in N; contradiction | exact N]));
    try lia.
  all: apply Zlt_le_succ, IZR_le in H1; apply Zlt_le_succ, IZR_le in H2.
  all: unfold Z.succ in *; repeat rewrite ?plus_IZR, ?minus_IZR in *.
  all: try lra.

Qed.

Lemma contains_proper_spans self r :
  QRect.contains self r true = true ->
  (fst (QRect.span (QRect.x1 self) (QRect.x2 self)) <
   fst (QRect.span (QRect.x1 r) (QRect.x2 r)))%Z /\
  (snd (QRect.span (QRect.x1 r) (QRect.x2 r)) <
   snd (QRect.span (QRect.x1 self) (QRect.x2 self)))%Z /\
  (fst (QRect.span (QRect.y1 self) (QRect.y2 self)) <
   fst (QRect.span (QRect.y1 r) (QRect.y2 r)))%Z /\
  (snd (QRect.span (QRect.y1 r) (QRect.y2 r)) <
   snd (QRect.span (QRect.y1 self) (QRect.y2 self)))%Z.
Proof.
  unfold QRect.contains.
  destruct (QRect.isNull self || QRect.isNull r); [discriminate|].
  destruct (QRect.span (QRect.x1 self) (QRect.x2 self)) as [l1 r1].
  destruct (QRect.span (QRect.x1 r) (QRect.x2 r)) as [l2 r2].
  destruct (QRect.span (QRect.y1 self) (QRect.y2 self)) as [t1 b1].
  destruct (QRect.span (QRect.y1 r) (QRect.y2 r)) as [t2 b2].
  simpl.
  destruct (Z.leb_spec l2 l1); [discriminate|].
  destruct (Z.geb_spec r2 r1); [discriminate|]. simpl.
  destruct (Z.leb_spec t2 t1); [discriminate|].
  destruct (Z.geb_spec b2 b1); [discriminate|]. simpl.
  intros _. lia.
Qed.

(** Proper containment of the rounded rectangles entails inclusion of
    the regions, when the inner rectangle has integral coordinates. *)
Lemma proper_covers S px py pw ph :
  QRect.contains (QRectF.toRect S) (QRect.mk px py pw ph) true = true ->
  covers S (QRectF.mk (IZR px) (IZR py) (IZR pw) (IZR ph)).
Proof.
  intros H. apply contains_proper_spans in H.
  destruct H as (Hx1 & Hx2 & Hy1 & Hy2).
  unfold QRectF.toRect, QRect.mk in *. simpl in *.
  pose proof (qRound_bounds (QRectF.xp S)) as Bx.
  pose proof (qRound_bounds (QRectF.yp S)) as By.
  pose proof (qRound_bounds
    (QRectF.w S + (QRectF.xp S - IZR (qRound (QRectF.xp S))) / 2)) as Bw.
  pose proof (qRound_bounds
    (QRectF.h S + (QRectF.yp S - IZR (qRound (QRectF.yp S))) / 2)) as Bh.
  pose proof (span_inside _ _ _ _ _ _ Bx Bw Hx1 Hx2) as (X1 & X2 & X3).
  pose proof (span_inside _ _ _ _ _ _ By Bh Hy1 Hy2) as (Y1 & Y2 & Y3).
  intros pt. unfold QRectF.contains. simpl.
  destruct (QRectF.span (QRectF.xp S) (QRectF.w S)) as [l r].
  destruct (QRectF.span (QRectF.yp S) (QRectF.h S)) as [t b].
  destruct (QRectF.span (IZR px) (IZR pw)) as [lp rp].
  destruct (QRectF.span (IZR py) (IZR ph)) as [tp bp].
  simpl in *. intros (_ & Hpx & _ & Hpy). lra.
Qed.


(** *** The extent of a union *)

Lemma span_ordered p s : fst (QRectF.span p s) <= snd (QRectF.span p s).
Proof. unfold QRectF.span. destruct (Rlt_dec s 0); simpl; lra. Qed.

Lemma span_of_extent l r : l <= r -> QRectF.span l (r - l) = (l, r).
Proof.
  intros H. unfold QRectF.span.
  destruct (Rlt_dec (r - l) 0); [lra|]. f_equal. ring.
Qed.

Lemma span_neg p s : s < 0 -> QRectF.span p s = (p + s, p).
Proof. intros H. unfold QRectF.span. destruct (Rlt_dec s 0); [reflexivity | lra]. Qed.

Lemma span_nonneg p s : ~ s < 0 -> QRectF.span p s = (p, p + s).
Proof. intros H. unfold QRectF.span. destruct (Rlt_dec s 0); [lra | reflexivity]. Qed.

Lemma span_normalized p s : 0 <= s -> QRectF.span p s = (p, p + s).
Proof. intros H. unfold QRectF.span. destruct (Rlt_dec s 0); [lra | reflexivity]. Qed.

Lemma isNull_false r :
  QRectF.isNull r = false <-> QRectF.w r <> 0 \/ QRectF.h r <> 0.
Proof.
  unfold QRectF.isNull, Reqb.
  destruct (Req_dec_T (QRectF.w r) 0), (Req_dec_T (QRectF.h r) 0); simpl;
    intuition (try discriminate; try lra).
Qed.

Lemma contains_not_null r p : QRectF.contains r p -> QRectF.isNull r = false.
Proof.
  unfold QRectF.contains, QRectF.span. intros H. apply isNull_false.
  destruct (Rlt_dec (QRectF.w r) 0); destruct (Rlt_dec (QRectF.h r) 0);
    left; lra.
Qed.

(** Along each axis the union extends from the smaller of the two lower
    ends to the larger of the two upper ends. *)
Lemma united_value S P :
  QRectF.isNull S = false ->
  QRectF.isNull P = false ->
  let sx := QRectF.span (QRectF.xp S) (QRectF.w S) in
  let sy := QRectF.span (QRectF.yp S) (QRectF.h S) in
  let px := QRectF.span (QRectF.xp P) (QRectF.w P) in
  let py := QRectF.span (QRectF.yp P) (QRectF.h P) in
  QRectF.united S P =
  QRectF.mk (Rmin (fst sx) (fst px)) (Rmin (fst sy) (fst py))
            (Rmax (snd sx) (snd px) - Rmin (fst sx) (fst px))
            (Rmax (snd sy) (snd py) - Rmin (fst sy) (fst py)).
Proof.
  intros HS HP. cbv zeta. unfold QRectF.united. rewrite HS, HP.
  destruct (QRectF.span (QRectF.xp S) (QRectF.w S)) as [l r].
  destruct (QRectF.span (QRectF.yp S) (QRectF.h S)) as [t b].
  destruct (Rlt_dec (QRectF.w P) 0) as [Hw | Hw];
    [rewrite (span_neg _ _ Hw) | rewrite (span_nonneg _ _ Hw)];
    (destruct (Rlt_dec (QRectF.h P) 0) as [Hh | Hh];
     [rewrite (span_neg _ _ Hh) | rewrite (span_nonneg _ _ Hh)]);
    simpl; rewrite !qMin_Rmin, !qMax_Rmax; reflexivity.
Qed.

Lemma containsE r p :
  QRectF.contains r p <->
  let sx := QRectF.span (QRectF.xp r) (QRectF.w r) in
  let sy := QRectF.span (QRectF.yp r) (QRectF.h r) in
  fst sx <> snd sx /\ fst sx <= QPointF.x p <= snd sx /\
  fst sy <> snd sy /\ fst sy <= QPointF.y p <= snd sy.
Proof.
  unfold QRectF.contains.
  destruct (QRectF.span (QRectF.xp r) (QRectF.w r)).
  destruct (QRectF.span (QRectF.yp r) (QRectF.h r)). reflexivity.
Qed.

Lemma united_contains S P p :
  QRectF.isNull S = false ->
  QRectF.isNull P = false ->
  QRectF.contains (QRectF.united S P) p <->
  let sx := QRectF.span (QRectF.xp S) (QRectF.w S) in
  let sy := QRectF.span (QRectF.yp S) (QRectF.h S) in
  let px := QRectF.span (QRectF.xp P) (QRectF.w P) in
  let py := QRectF.span (QRectF.yp P) (QRectF.h P) in
  Rmin (fst sx) (fst px) <> Rmax (snd sx) (snd px) /\
  Rmin (fst sx) (fst px) <= QPointF.x p <= Rmax (snd sx) (snd px) /\
  Rmin (fst sy) (fst py) <> Rmax (snd sy) (snd py) /\
  Rmin (fst sy) (fst py) <= QPointF.y p <= Rmax (snd sy) (snd py).
Proof.
  intros HS HP. rewrite containsE, (united_value S P HS HP). cbv zeta. simpl.
  pose proof (span_ordered (QRectF.xp S) (QRectF.w S)).
  pose proof (span_ordered (QRectF.yp S) (QRectF.h S)).
  rewrite !span_of_extent; [reflexivity| |];
    match goal with
    | |- Rmin ?a ?b <= Rmax ?c ?d =>
        pose proof (Rmin_l a b); pose proof (Rmax_l c d); lra
    end.
Qed.

Ltac minmax :=
  unfold Rmin, Rmax;
  repeat match goal with
         | |- context [Rle_dec ?a ?b] => destruct (Rle_dec a b)
         end.

Lemma united_covers_l S P : covers (QRectF.united S P) S.
Proof.
  intros pt H. pose proof (contains_not_null _ _ H) as HS.
  destruct (QRectF.isNull P) eqn:HP.
  - unfold QRectF.united. rewrite HS, HP. exact H.
  - apply united_contains; [assumption..|]. apply containsE in H.
    cbv zeta in *.
    pose proof (span_ordered (QRectF.xp P) (QRectF.w P)).
    pose proof (span_ordered (QRectF.yp P) (QRectF.h P)).
    pose proof (span_ordered (QRectF.xp S) (QRectF.w S)).
    pose proof (span_ordered (QRectF.yp S) (QRectF.h S)).
    minmax; lra.
Qed.

Lemma united_covers_r S P : covers (QRectF.united S P) P.
Proof.
  intros pt H. pose proof (contains_not_null _ _ H) as HP.
  destruct (QRectF.isNull S) eqn:HS.
  - unfold QRectF.united. rewrite HS. exact H.
  - apply united_contains; [assumption..|]. apply containsE in H.
    cbv zeta in *.
    pose proof (span_ordered (QRectF.xp S) (QRectF.w S)).
    pose proof (span_ordered (QRectF.yp S) (QRectF.h S)).
    pose proof (span_ordered (QRectF.xp P) (QRectF.w P)).
    pose proof (span_ordered (QRectF.yp P) (QRectF.h P)).
    minmax; lra.
Qed.

Lemma covers_extent S P :
  0 < QRectF.w P -> 0 < QRectF.h P ->
  covers S P ->
  let sx := QRectF.span (QRectF.xp S) (QRectF.w S) in
  let sy := QRectF.span (QRectF.yp S) (QRectF.h S) in
  fst sx < snd sx /\ fst sx <= QRectF.xp P /\ QRectF.xp P + QRectF.w P <= snd sx /\
  fst sy < snd sy /\ fst sy <= QRectF.yp P /\ QRectF.yp P + QRectF.h P <= snd sy.
Proof.
  intros Hw Hh Hc. cbv zeta.
  assert (H1 : QRectF.contains P (QPointF.mk (QRectF.xp P) (QRectF.yp P))).
  { apply containsE. cbv zeta.
    rewrite !span_normalized by lra. simpl. lra. }
  assert (H2 : QRectF.contains P
                 (QPointF.mk (QRectF.xp P + QRectF.w P) (QRectF.yp P + QRectF.h P))).
  { apply containsE. cbv zeta.
    rewrite !span_normalized by lra. simpl. lra. }
  apply Hc, containsE in H1. apply Hc, containsE in H2.
  cbv zeta in *. simpl in *. lra.
Qed.

(** A union with a region already covered adds nothing. *)
Lemma united_absorb S P :
  0 < QRectF.w P -> 0 < QRectF.h P ->
  covers S P ->
  covers S (QRectF.united S P) /\
  (normalizedRect S -> QRectF.united S P = S).
Proof.
  intros Hw Hh Hc.
  pose proof (covers_extent S P Hw Hh Hc) as E. cbv zeta in E.
  assert (HP : QRectF.isNull P = false) by (apply isNull_false; left; lra).
  assert (HS : QRectF.isNull S = false).
  { apply isNull_false.
    destruct (Req_dec_T (QRectF.w S) 0) as [Hz|]; [|left; assumption].
    rewrite Hz, span_normalized in E by lra. simpl in E. lra. }
  assert (U : QRectF.united S P =
              QRectF.mk (fst (QRectF.span (QRectF.xp S) (QRectF.w S)))
                        (fst (QRectF.span (QRectF.yp S) (QRectF.h S)))
                        (snd (QRectF.span (QRectF.xp S) (QRectF.w S)) -
                         fst (QRectF.span (QRectF.xp S) (QRectF.w S)))
                        (snd (QRectF.span (QRectF.yp S) (QRectF.h S)) -
                         fst (QRectF.span (QRectF.yp S) (QRectF.h S)))).
  { rewrite (united_value S P HS HP). cbv zeta.
    rewrite (span_normalized (QRectF.xp P)), (span_normalized (QRectF.yp P)) by lra.
    simpl. rewrite !Rmin_left, !Rmax_left by lra. reflexivity. }
  rewrite U. split.
  - intros pt. rewrite !containsE. cbv zeta. simpl.
    rewrite !span_of_extent by lra. simpl. tauto.
  - intros [Nw Nh]. rewrite !span_normalized by assumption. simpl.
    destruct S; simpl. f_equal; ring.
Qed.

Section SceneRect.
Context {T : Toolkit}.

Lemma paddedVisibleRect_integral v :
  let r := QRectF.toRect (mapToScene_boundingRect v (viewport_rect v)) in
  paddedVisibleRect v =
  QRectF.mk (IZR (QRect.x r - 50)) (IZR (QRect.y r - 50))
            (IZR (QRect.width r + 100)) (IZR (QRect.height r + 100)).
Proof.
  cbv zeta. unfold paddedVisibleRect, QRectF.ofRect, QRectF.x, QRectF.y,
    QRectF.width, QRectF.height. simpl.
  rewrite !minus_IZR, !plus_IZR. reflexivity.
Qed.

Lemma paddedVisibleRect_size v :
  normalizedRect (mapToScene_boundingRect v (viewport_rect v)) ->
  100 <= QRectF.w (paddedVisibleRect v) /\ 100 <= QRectF.h (paddedVisibleRect v).
Proof.
  intros [Nw Nh]. unfold paddedVisibleRect, QRectF.ofRect, QRectF.toRect,
    QRectF.width, QRectF.height, QRect.width, QRect.height, QRect.mk. simpl.
  set (vis := mapToScene_boundingRect v (viewport_rect v)) in *.
  pose proof (qRound_bounds (QRectF.xp vis)) as Bx.
  pose proof (qRound_bounds (QRectF.yp vis)) as By.
  set (nx := qRound (QRectF.xp vis)) in *.
  set (ny := qRound (QRectF.yp vis)) in *.
  pose proof (qRound_bounds (QRectF.w vis + (QRectF.xp vis - IZR nx) / 2)) as Bw.
  pose proof (qRound_bounds (QRectF.h vis + (QRectF.yp vis - IZR ny) / 2)) as Bh.
  set (nw := qRound (QRectF.w vis + _)) in *.
  set (nh := qRound (QRectF.h vis + _)) in *.
  assert (0 <= nw)%Z by (cut (-1 < nw)%Z; [lia|]; apply lt_IZR; lra).
  assert (0 <= nh)%Z by (cut (-1 < nh)%Z; [lia|]; apply lt_IZR; lra).
  split.
  - replace (nx + nw - 1 - nx + 1)%Z with nw by lia.
    apply (IZR_le 0) in H. lra.
  - replace (ny + nh - 1 - ny + 1)%Z with nh by lia.
    apply (IZR_le 0) in H0. lra.
Qed.

(** When the test of [updateSceneRect] succeeds, the scene rectangle
    covers the padded visible region. *)
Lemma properlyInside_covers v :
  properlyInside v = true ->
  covers (QGraphicsView.sceneRect v) (paddedVisibleRect v).
Proof.
  unfold properlyInside. rewrite paddedVisibleRect_integral. cbv zeta.
  rewrite toRect_integral. apply proper_covers.
Qed.

End SceneRect.

(** ** C7: the scene rectangle only grows *)

(** C7. [updateSceneRect] never shrinks the scene bounds: every point of
    the old bounds is a point of the new ones, which also cover the
    padded visible region. When the old bounds do not cover the padded
    visible region, the new bounds are exactly the union of the two;
    when they do, the bounds stay the same region, and the same
    rectangle if it was normalized. The visible region is a bounding
    rectangle, of non-negative size. *)
Theorem updateSceneRect_grows {T : Toolkit} (w : World) :
  normalizedRect (mapToScene_boundingRect (base w) (viewport_rect (base w))) ->
  exists w',
    exec View.updateSceneRect w = Some w' /\
    let old := QGraphicsView.sceneRect (base w) in
    let padded := paddedVisibleRect (base w) in
    let new := QGraphicsView.sceneRect (base w') in
    w' = mkWorld (view w) (QGraphicsView.setSceneRect new (base w))
                 (heap w) (connections w) (emitted w) /\
    covers new old /\
    covers new padded /\
    (~ covers old padded -> new = QRectF.united old padded) /\
    (covers old padded -> covers old new /\ (normalizedRect old -> new = old)).
Proof.
  intros Hvis. unfold exec. rewrite updateSceneRect_run.
  eexists. split; [reflexivity|]. cbv zeta. simpl.
  destruct (paddedVisibleRect_size (base w) Hvis) as [Pw Ph].
  unfold sceneRectUpdated.
  destruct (properlyInside (base w)) eqn:Hin.
  - pose proof (properlyInside_covers _ Hin) as Hc.
    rewrite base_eta.
    refine (conj _ (conj _ (conj _ (conj _ _)))).
    + reflexivity.
    + intros p Hp. exact Hp.
    + exact Hc.
    + intros Hn. contradiction.
    + intros _. split; [intros p Hp; exact Hp | reflexivity].
  - simpl.
    refine (conj _ (conj _ (conj _ (conj _ _)))).
    + reflexivity.
    + apply united_covers_l.
    + apply united_covers_r.
    + reflexivity.
    + apply united_absorb; lra.
Qed.

Lemma updateSceneRect_grows_witness :
  exists w',
    exec (@View.updateSceneRect sample_toolkit) sample_world = Some w' /\
    covers (QGraphicsView.sceneRect (base w'))
           (QGraphicsView.sceneRect (base sample_world)).
Proof.
  destruct (@updateSceneRect_grows sample_toolkit sample_world)
    as (w' & E & _ & H & _).
  - unfold normalizedRect. simpl.
    change (QRect.width sample_viewport) with 164%Z.
    change (QRect.height sample_viewport) with 164%Z. lra.
  - exists w'. split; assumption.
Defined.

(** ** C8: the pan gesture *)

Section Panning.
Context {T : Toolkit}.

Lemma mousePress_middle_run p w :
  View.mousePressEvent {| button := MiddleButton; position := p |} w =
  Some (true,
        mkWorld
          (set_panStart (QPointF.ofPoint (QPointF.toPoint p))
             (set_mode PanMode (view w)))
          (QGraphicsView.setCursor ClosedHandCursor (base w))
          (heap w) (connections w) (emitted w ++ [modeChanged PanMode])).
Proof. reflexivity. Qed.

Lemma mouseRelease_middle_run p w :
  View.mouseReleaseEvent {| button := MiddleButton; position := p |} w =
  Some (true,
        mkWorld (set_mode NormalMode (view w))
          (QGraphicsView.setCursor ArrowCursor (base w))
          (heap w) (connections w) (emitted w ++ [modeChanged NormalMode])).
Proof. reflexivity. Qed.

Lemma mouseMove_normal_run e w :
  _mode (view w) = NormalMode ->
  View.mouseMoveEvent e w =
  Some (false,
        mkWorld (view w) (QGraphicsView.baseEvent (BaseMouseMove e) (base w))
                (heap w) (connections w) (emitted w)).
Proof.
  intros Hm. unfold View.mouseMoveEvent, bind, with_base, modify, gets.
  simpl. rewrite Hm. reflexivity.
Qed.

Lemma mouseMove_pan_run e w :
  _mode (view w) = PanMode ->
  View.mouseMoveEvent e w =
  Some (true,
        let b := QGraphicsView.baseEvent (BaseMouseMove e) (base w) in
        let delta :=
          QPointF.sub (mapToScene b (pos e))
                      (mapToScene b (QPointF.toPoint (_panStart (view w)))) in
        mkWorld (set_panStart (position e) (view w))
          (sceneRectUpdated
             (QGraphicsView.setTransform
                (QTransform.translate (QPointF.x delta) (QPointF.y delta)
                                      (QGraphicsView.transform (base w)))
                (QGraphicsView.setTransformationAnchor NoAnchor b)))
          (heap w) (connections w) (emitted w)).
Proof.
  intros Hm.
  unfold View.mouseMoveEvent, bind at 1 2. unfold with_base at 1, modify, gets at 1.
  simpl. rewrite Hm.
  unfold bind, gets, with_base, with_view, modify, ret. simpl.
  rewrite updateSceneRect_run. reflexivity.
Qed.

Lemma toPoint_ofPoint q : QPointF.toPoint (QPointF.ofPoint q) = q.
Proof.
  destruct q. unfold QPointF.toPoint, QPointF.ofPoint. simpl.
  rewrite !qRound_IZR. reflexivity.
Qed.

Lemma last_cons {A} (l : list A) (a d : A) : List.last (a :: l) d = List.last l a.
Proof.
  revert a d. induction l as [|b l IH]; intros a d; [reflexivity|].
  change (List.last (a :: b :: l) d) with (List.last (b :: l) d).
  change (List.last (b :: l) a) with (List.last (b :: l) a).
  rewrite (IH b d), (IH b a). reflexivity.
Qed.

(** Dragging keeps the view in pan mode, with the anchor at the last
    pointer position. *)
Lemma drag_run moves w :
  _mode (view w) = PanMode ->
  exists w',
    exec (drag moves) w = Some w' /\
    _mode (view w') = PanMode /\
    _panStart (view w') = List.last moves (_panStart (view w)).
Proof.
  revert w. induction moves as [|p moves IH]; intros w Hm.
  - exists w. repeat split; assumption.
  - simpl drag. unfold exec, bind. rewrite (mouseMove_pan_run _ _ Hm).
    cbv zeta.
    match goal with |- context [drag moves ?w1] =>
      destruct (IH w1) as (w' & E & M & A); [exact Hm|] end.
    exists w'. unfold exec in E. split; [exact E|]. split; [exact M|].
    rewrite A, last_cons. reflexivity.
Qed.

End Panning.

(** C8. A middle-button press puts the view in pan mode and records the
    press position as the anchor; a mouse move in pan mode translates
    the transform by exactly the difference of the scene positions of
    the pointer and of the anchor, makes the pointer position the new
    anchor and stays in pan mode; a middle-button release returns to
    normal mode. The scene positions are those of the integral points
    [pos()] and [_panStart.toPoint()], mapped after the base class has
    seen the move; press and release leave the transform alone. *)
Theorem pan_gesture {T : Toolkit} (w wp : World) (p : QPointF.t) (e : QMouseEvent) :
  _mode (view wp) = PanMode ->
  (exists w1,
      View.mousePressEvent {| button := MiddleButton; position := p |} w =
        Some (true, w1) /\
      _mode (view w1) = PanMode /\
      _panStart (view w1) = QPointF.ofPoint (QPointF.toPoint p) /\
      QPointF.toPoint (_panStart (view w1)) = QPointF.toPoint p /\
      QGraphicsView.transform (base w1) = QGraphicsView.transform (base w) /\
      emitted w1 = emitted w ++ [modeChanged PanMode]) /\
  (exists w2,
      View.mouseMoveEvent e wp = Some (true, w2) /\
      let b := QGraphicsView.baseEvent (BaseMouseMove e) (base wp) in
      let delta :=
        QPointF.sub (mapToScene b (pos e))
                    (mapToScene b (QPointF.toPoint (_panStart (view wp)))) in
      QGraphicsView.transform (base w2) =
        QTransform.translate (QPointF.x delta) (QPointF.y delta)
                             (QGraphicsView.transform (base wp)) /\
      _panStart (view w2) = position e /\
      _mode (view w2) = PanMode) /\
  (exists w3,
      View.mouseReleaseEvent {| button := MiddleButton; position := p |} wp =
        Some (true, w3) /\
      _mode (view w3) = NormalMode /\
      QGraphicsView.transform (base w3) = QGraphicsView.transform (base wp) /\
      emitted w3 = emitted wp ++ [modeChanged NormalMode]).
Proof.
  intros Hm. split; [|split].
  - eexists. split; [apply mousePress_middle_run|]. simpl.
    rewrite toPoint_ofPoint. repeat split; reflexivity.
  - eexists. split; [apply (mouseMove_pan_run _ _ Hm)|]. cbv zeta. simpl.
    rewrite sceneRectUpdated_transform. simpl.
    repeat split; try reflexivity; assumption.
  - eexists. split; [apply mouseRelease_middle_run|]. simpl.
    repeat split; reflexivity.
Qed.

Lemma pan_gesture_witness :
  exists w2,
    @View.mouseMoveEvent sample_toolkit
      {| button := NoButton; position := QPointF.mk 7 3 |}
      (mkWorld (set_mode PanMode sample_view) sample_base ∅ [] []) =
      Some (true, w2) /\
    _panStart (view w2) = QPointF.mk 7 3.
Proof.
  destruct (@pan_gesture sample_toolkit sample_world
              (mkWorld (set_mode PanMode sample_view) sample_base ∅ [] [])
              (QPointF.mk 0 0)
              {| button := NoButton; position := QPointF.mk 7 3 |})
    as (_ & (w2 & E & _ & A & _) & _).
  - reflexivity.
  - exists w2. split; assumption.
Defined.

(** A whole gesture: press at [p0], drag through [moves], release at
    [p1]. The view ends in normal mode. *)
Lemma pan_gesture_returns {T : Toolkit} (w : World) (p0 p1 : QPointF.t)
    (moves : list QPointF.t) :
  exists w',
    exec (View.mousePressEvent {| button := MiddleButton; position := p0 |} ;;
          drag moves ;;
          View.mouseReleaseEvent {| button := MiddleButton; position := p1 |}) w
      = Some w' /\
    _mode (view w') = NormalMode.
Proof.
  unfold exec, bind at 1. rewrite mousePress_middle_run.
  match goal with |- context [bind (drag moves) _ ?w1] =>
    destruct (drag_run moves w1) as (w2 & E & _); [reflexivity|];
    unfold bind; unfold exec in E;
    destruct (drag moves w1) as [[[] w2']|]; [|discriminate];
    injection E as -> end.
  rewrite mouseRelease_middle_run. eexists. split; reflexivity.
Qed.

(** ** C6: Delete pushes one remove command per selected item *)

Lemma pushAll_undoStack sid items s :
  Scene.undoStack (pushAll sid items s) =
  Scene.undoStack s ++ map (Scene.ItemRemove sid) items.
Proof.
  revert s. induction items as [|item items IH]; intros s; simpl.
  - rewrite app_nil_r. reflexivity.
  - unfold pushAll in *. simpl. rewrite IH. simpl.
    rewrite <- app_assoc. reflexivity.
Qed.

Lemma pushAll_frame sid items s :
  Scene.mode (pushAll sid items s) = Scene.mode s /\
  Scene.items (pushAll sid items s) = Scene.items s /\
  Scene.selectedTopLevelItems (pushAll sid items s) = Scene.selectedTopLevelItems s /\
  Scene.wirePosture (pushAll sid items s) = Scene.wirePosture s /\
  Scene.wirePoints (pushAll sid items s) = Scene.wirePoints s.
Proof.
  revert s. induction items as [|item items IH]; intros s; simpl.
  - repeat split; reflexivity.
  - unfold pushAll in *. simpl.
    destruct (IH (Scene.push (Scene.ItemRemove sid item) s)) as (-> & -> & -> & -> & ->).
    repeat split; reflexivity.
Qed.

(** The loop of the Delete key: the commands go to the scene at [sid],
    nothing else changes. *)
Lemma forEach_push_run sid items w s :
  heap w !! sid = Some s ->
  exists w',
    forEach items (fun item => onScene sid (Scene.push (Scene.ItemRemove sid item))) w
      = Some (tt, w') /\
    view w' = view w /\ base w' = base w /\
    connections w' = connections w /\ emitted w' = emitted w /\
    heap w' !! sid = Some (pushAll sid items s) /\
    (forall sid', sid' <> sid -> heap w' !! sid' = heap w !! sid').
Proof.
  revert w s. induction items as [|item items IH]; intros w s Hh.
  - exists w. simpl. repeat split; try reflexivity. assumption.
  - simpl forEach. unfold bind at 1, onScene, bind, deref, modify.
    rewrite Hh.
    match goal with |- context [forEach items _ ?w1] =>
      destruct (IH w1 (Scene.push (Scene.ItemRemove sid item) s))
        as (w' & E & V & B & Cn & Em & Hs & Ho)
    end.
    { simpl. apply lookup_insert_eq. }
    exists w'. split; [exact E|]. simpl in *.
    repeat split; try assumption.
    intros sid' Hne. rewrite (Ho sid' Hne). apply lookup_insert_ne. congruence.
Qed.

(** C6. With a scene attached that is in normal mode, the Delete key
    pushes onto that scene's undo stack one remove command per selected
    top-level item, in the order of the selection, and nothing else:
    the stack grows by exactly the number of selected items, the rest
    of the scene, the other scenes and the view stay as they were. *)
Theorem delete_pushes_commands {C : Constants} {T : Toolkit} (w : World)
    (e : QKeyEvent) (sid : SceneId) (s : Scene.t) :
  key e = Key_Delete ->
  _scene (view w) = Some sid ->
  heap w !! sid = Some s ->
  Scene.mode s = Scene.NormalMode ->
  exists w' s',
    exec (View.keyPressEvent e) w = Some w' /\
    heap w' !! sid = Some s' /\
    Scene.undoStack s' =
      Scene.undoStack s ++
      map (Scene.ItemRemove sid) (Scene.selectedTopLevelItems s) /\
    length (Scene.undoStack s') =
      (length (Scene.undoStack s) + length (Scene.selectedTopLevelItems s))%nat /\
    Scene.mode s' = Scene.mode s /\
    Scene.items s' = Scene.items s /\
    Scene.selectedTopLevelItems s' = Scene.selectedTopLevelItems s /\
    (forall sid', sid' <> sid -> heap w' !! sid' = heap w !! sid') /\
    view w' = view w /\ base w' = base w /\ emitted w' = emitted w.
Proof.
  intros Hk Hs Hh Hm.
  destruct (forEach_push_run sid (Scene.selectedTopLevelItems s) w s Hh)
    as (w' & E & V & B & Cn & Em & Hs' & Ho).
  exists w', (pushAll sid (Scene.selectedTopLevelItems s) s).
  destruct (pushAll_frame sid (Scene.selectedTopLevelItems s) s)
    as (F1 & F2 & F3 & _).
  split.
  - unfold exec, View.keyPressEvent. rewrite Hk.
    assert (A : View.keyPressEvent_alone e w = Some (tt, w')).
    { unfold View.keyPressEvent_alone. rewrite Hk. simpl.
      unfold ifScene, bind at 1, gets. rewrite Hs.
      unfold bind at 1, deref. rewrite Hh, Hm. simpl. exact E. }
    destruct (controlHeld (modifiers e)); simpl; rewrite A; reflexivity.
  - rewrite pushAll_undoStack.
    rewrite length_app, length_map.
    repeat split; assumption.
Qed.

Lemma delete_pushes_commands_witness :
  exists w' s',
    exec (@View.keyPressEvent sample_constants sample_toolkit
            {| modifiers := 0; key := Key_Delete |}) sample_world_scene = Some w' /\
    heap w' !! 0%nat = Some s' /\
    Scene.undoStack s' =
      [Scene.ItemRemove 0%nat item_a; Scene.ItemRemove 0%nat item_b].
Proof.
  destruct (@delete_pushes_commands sample_constants sample_toolkit
              sample_world_scene {| modifiers := 0; key := Key_Delete |}
              0%nat sample_scene)
    as (w' & s' & E & H & U & _).
  - reflexivity.
  - reflexivity.
  - reflexivity.
  - reflexivity.
  - exists w', s'. repeat split; assumption.
Defined.

(** ** C9: without a scene *)

(** C9. With no scene attached, Ctrl+W, Ctrl+Space, Escape and Delete
    return without failure and leave the whole state as it was: no scene
    is touched and nothing is pushed or emitted; so does [fitInView].
    Backspace, which then cannot be in wire mode, likewise leaves the
    view, the scenes, the connections and the signals alone and hands
    the event to the base class. *)
Theorem no_scene_no_op {C : Constants} {T : Toolkit} (w : World) (e : QKeyEvent) :
  _scene (view w) = None ->
  (controlHeld (modifiers e) = true -> key e = Key_W \/ key e = Key_Space ->
   View.keyPressEvent e w = Some (tt, w)) /\
  (key e = Key_Escape \/ key e = Key_Delete ->
   View.keyPressEvent e w = Some (tt, w)) /\
  (key e = Key_Backspace ->
   View.keyPressEvent e w =
   Some (tt, mkWorld (view w) (QGraphicsView.baseEvent (BaseKeyPress e) (base w))
                     (heap w) (connections w) (emitted w))) /\
  View.fitInView w = Some (tt, w).
Proof.
  intros Hs.
  assert (I : forall k, ifScene k w = Some (tt, w)).
  { intros k. unfold ifScene, bind, gets. rewrite Hs. reflexivity. }
  split; [|split; [|split]].
  - intros Hc [Hk | Hk]; unfold View.keyPressEvent; rewrite Hc, Hk; simpl; apply I.
  - intros [Hk | Hk]; unfold View.keyPressEvent, View.keyPressEvent_alone;
      rewrite Hk; destruct (controlHeld (modifiers e)); simpl; apply I.
  - intros Hk. unfold View.keyPressEvent, View.keyPressEvent_alone.
    rewrite Hk. destruct (controlHeld (modifiers e)); simpl;
      unfold bind, gets; rewrite Hs; reflexivity.
  - apply fitInView_no_scene. assumption.
Qed.

Lemma no_scene_no_op_witness :
  @View.keyPressEvent sample_constants sample_toolkit
    {| modifiers := 0; key := Key_Delete |} sample_world = Some (tt, sample_world) /\
  @View.fitInView sample_constants sample_toolkit sample_world = Some (tt, sample_world).
Proof.
  destruct (@no_scene_no_op sample_constants sample_toolkit sample_world
              {| modifiers := 0; key := Key_Delete |}) as (_ & D & _ & F).
  - reflexivity.
  - split; [apply D; right; reflexivity | exact F].
Defined.

(** ** C10: connections made by [setScene] *)

Section Connections.

Lemma cursorLambda_run m w :
  View.cursorLambda m w =
  Some (tt, mkWorld (view w)
              (QGraphicsView.setCursor (cursorFor m (QGraphicsView.cursor (base w))) (base w))
              (heap w) (connections w) (emitted w)).
Proof.
  destruct m; try reflexivity.
  unfold View.cursorLambda, ret, cursorFor.
  destruct w as [? [] ? ? ?]. reflexivity.
Qed.

Lemma cursorFor_idem m c : cursorFor m (cursorFor m c) = cursorFor m c.
Proof. destruct m; reflexivity. Qed.

(** Running the slot once per connection of the sender. *)
Lemma slots_run {A} (l : list A) m w :
  l <> [] ->
  exists w',
    forEach l (fun _ => View.cursorLambda m) w = Some (tt, w') /\
    QGraphicsView.cursor (base w') = cursorFor m (QGraphicsView.cursor (base w)) /\
    view w' = view w /\ heap w' = heap w /\
    connections w' = connections w /\ emitted w' = emitted w.
Proof.
  revert w. induction l as [|a l IH]; intros w Hne; [contradiction|].
  simpl forEach. unfold bind. rewrite cursorLambda_run.
  destruct l as [|b l].
  - eexists. split; [reflexivity|]. simpl. repeat split; reflexivity.
  - match goal with |- context [forEach (b :: l) _ ?w1] =>
      destruct (IH w1) as (w' & E & Cu & V & H & Cn & Em); [discriminate|] end.
    exists w'. split; [exact E|]. simpl in *.
    rewrite Cu, cursorFor_idem. repeat split; assumption.
Qed.

Lemma setScene_run scene w :
  View.setScene scene w =
  Some (tt, mkWorld (set_scene scene (view w))
              (QGraphicsView.setScene scene (base w)) (heap w)
              (connections w ++ match scene with Some sid => [sid] | None => [] end)
              (emitted w)).
Proof.
  destruct scene; unfold View.setScene, connect_modeChanged, bind, with_base,
    with_view, modify, ret; simpl; [reflexivity|].
  rewrite app_nil_r. reflexivity.
Qed.

Lemma emit_modeChanged_connected sender m w :
  In sender (connections w) ->
  exists w',
    View.Scene_emit_modeChanged sender m w = Some (tt, w') /\
    QGraphicsView.cursor (base w') = cursorFor m (QGraphicsView.cursor (base w)) /\
    view w' = view w /\ heap w' = heap w /\
    connections w' = connections w /\ emitted w' = emitted w.
Proof.
  intros Hin. unfold View.Scene_emit_modeChanged, bind at 1, gets.
  apply slots_run.
  intros Hnil.
  assert (Hf : In sender (List.filter (Nat.eqb sender) (connections w))).
  { apply filter_In. split; [assumption | apply Nat.eqb_refl]. }
  rewrite Hnil in Hf. destruct Hf.
Qed.

End Connections.

(** C10. [setScene] only ever adds to the connections: a call with a
    scene appends one connection from that scene's [modeChanged] to the
    cursor lambda, a call with a null pointer appends none, and no
    earlier connection is removed. So after a first scene and then a
    second one have been attached, a mode change emitted by the first
    scene still sets the viewport cursor: arrow for normal mode, cross
    for wire mode, unchanged for any other mode. *)
Theorem setScene_keeps_connections (w : World) (s1 s2 : SceneId) (m : Scene.Mode) :
  (forall scene, exists w',
      exec (View.setScene scene) w = Some w' /\
      connections w' =
        connections w ++ match scene with Some sid => [sid] | None => [] end) /\
  exists w1 w2 w3,
    exec (View.setScene (Some s1)) w = Some w1 /\
    exec (View.setScene (Some s2)) w1 = Some w2 /\
    connections w2 = connections w ++ [s1; s2] /\
    _scene (view w2) = Some s2 /\
    exec (View.Scene_emit_modeChanged s1 m) w2 = Some w3 /\
    QGraphicsView.cursor (base w3) = cursorFor m (QGraphicsView.cursor (base w)).
Proof.
  split.
  - intros scene. unfold exec. rewrite setScene_run. eexists. split; reflexivity.
  - pose (w1 := mkWorld (set_scene (Some s1) (view w))
                        (QGraphicsView.setScene (Some s1) (base w)) (heap w)
                        (connections w ++ [s1]) (emitted w)).
    pose (w2 := mkWorld (set_scene (Some s2) (view w1))
                        (QGraphicsView.setScene (Some s2) (base w1)) (heap w1)
                        (connections w1 ++ [s2]) (emitted w1)).
    destruct (emit_modeChanged_connected s1 m w2) as (w3 & E & Cu & _).
    { simpl. apply in_or_app. left. apply in_or_app. right. left. reflexivity. }
    exists w1, w2, w3. unfold exec. rewrite !setScene_run, E.
    split; [reflexivity|]. split; [reflexivity|].
    split; [simpl; rewrite <- app_assoc; reflexivity|].
    split; [reflexivity|]. split; [reflexivity|].
    rewrite Cu. reflexivity.
Qed.
